(** * The round engine of the music-guessing game

    A shallow embedding of [src/components/GamePlayer.tsx] (the round
    component: timer, guess fields, scoring) and of [src/App.tsx] (track
    selection over the set of played identifiers).

    JavaScript numbers are modelled as exact rationals ([Q]) where a bound
    or an order is proved (every operation involved is monotone, so these
    hold of the doubles too), and as binary64 floats where the value of the
    score itself is stated.  Strings are [string], [Set<string>] is
    [gset string], React state is a record that is threaded through the
    event handlers.  An [async] handler is split at
    its [await]: the part that runs at the call, and the part that runs when
    the awaited promise settles. *)

From Stdlib Require Import QArith Qround Qminmax Lqa ZArith Lia Ascii.
From Stdlib Require PrimFloat FloatOps SpecFloat FloatClass.
From stdpp Require Import gmap strings list.

Local Open Scope Q_scope.

(** ** Numbers *)

Module JsMath.

(** [Math.round]: the nearest integer, halves going up. *)
Definition round (x : Q) : Z := Qfloor (x + (1 # 2)).

(** [Math.floor]. *)
Definition floor (x : Q) : Z := Qfloor x.

(** [Math.max] of two numbers. *)
Definition max (x y : Q) : Q := Qmax x y.

(** The comparison [x > y]. *)
Definition gt (x y : Q) : bool := negb (Qle_bool x y).

(** [arr[i]] for an integral index: [undefined] (here [None]) outside the
    array. *)
Definition index {A} (arr : list A) (i : Z) : option A :=
  if (i <? 0)%Z then None else arr !! Z.to_nat i.

End JsMath.

(** ** Tracks and playlists ([types/spotify], as far as the engine reads them) *)

Module Spotify.

Record Artist := { artist_name : string }.

Record Track := {
  id : string;
  name : string;
  artists : list Artist
}.

(** [playlist.id] and [playlist.tracks.total]. *)
Record Playlist := { playlist_id : string; tracks_total : Z }.

(** One entry of [response.items]; [item.track] is what the catalog sent,
    before validation. *)
Record PlaylistItem := { track : Track }.

End Spotify.

Abbreviation SpotifyTrack := Spotify.Track.
Abbreviation SpotifyPlaylist := Spotify.Playlist.

(** ** Text similarity ([utils/similarity]) *)

Module Similarity.

Section Normalization.

(** Modelled from the spec: the folding of one character that the
    normalization of [utils/similarity] applies (letter case, diacritics).
    The module is not among the sources and the spec leaves the exact
    folding open, so it is a parameter. *)
Variable fold : ascii -> ascii.

(** Modelled from the spec: the characters the normalization trims as
    whitespace; a parameter for the same reason. *)
Variable blank : ascii -> bool.

(** Modelled from the spec: removal of leading whitespace. *)
Fixpoint trimStart (l : list ascii) : list ascii :=
  match l with
  | [] => []
  | c :: l' => if blank c then trimStart l' else l
  end.

(** Modelled from the spec: removal of trailing whitespace. *)
Fixpoint trimEnd (l : list ascii) : list ascii :=
  match l with
  | [] => []
  | c :: l' =>
      match trimEnd l' with
      | [] => if blank c then [] else [c]
      | r => c :: r
      end
  end.

(** Modelled from the spec: the normal form that both arguments are taken
    to before they are compared: folded character by character, then
    trimmed. *)
Definition normalizeWith (s : string) : list ascii :=
  trimStart (trimEnd (map fold (String.list_ascii_of_string s))).

(** Modelled from the spec: the edit distance (insertions, deletions and
    substitutions) between two character sequences: equal heads cost
    nothing, otherwise one edit and the cheapest of the three ways on. *)
Fixpoint levenshtein (a b : list ascii) : nat :=
  match a with
  | [] => length b
  | x :: a' =>
      (fix inner (b : list ascii) : nat :=
         match b with
         | [] => length a
         | y :: b' =>
             if Ascii.eqb x y then levenshtein a' b'
             else S (Nat.min (Nat.min (levenshtein a' b) (inner b'))
                             (levenshtein a' b'))
         end) b
  end.

(** Modelled from the spec: the similarity of [utils/similarity], which is
    not among the sources.  An empty string has similarity 0 to every string
    (spec 4.1: the similarity of the empty string to any [y] is low or
    zero); otherwise the result is the normalized edit distance between the
    normal forms of the two strings, a number between 0 and 1, and two
    strings with the same normal form get 1. *)
Definition similarityWith (a b : string) : Q :=
  if String.eqb a "" || String.eqb b "" then 0
  else
    let x := normalizeWith a in
    let y := normalizeWith b in
    let longest := Nat.max (length x) (length y) in
    if decide (longest = 0%nat) then 1
    else 1 - inject_Z (Z.of_nat (levenshtein x y)) / inject_Z (Z.of_nat longest).


End Normalization.

(** Modelled from the spec: the case folding used for the sample data;
    letters [A]-[Z] go to [a]-[z]. *)
Definition toLowerCase (c : ascii) : ascii :=
  let n := N_of_ascii c in
  if ((65 <=? n) && (n <=? 90))%N then ascii_of_N (n + 32) else c.

(** Modelled from the spec: [calculateSimilarity] with the case folding and
    the whitespace of the sample data. *)
Definition calculateSimilarity : string -> string -> Q :=
  similarityWith toLowerCase Ascii.is_space.


End Similarity.

(** ** Sample data *)

Definition bohemianRhapsody : SpotifyTrack :=
  {| Spotify.id := "t1"; Spotify.name := "Bohemian Rhapsody";
     Spotify.artists := [ {| Spotify.artist_name := "Queen" |} ] |}.

Definition underPressure : SpotifyTrack :=
  {| Spotify.id := "t2"; Spotify.name := "Under Pressure";
     Spotify.artists := [ {| Spotify.artist_name := "Queen" |};
                          {| Spotify.artist_name := "David Bowie" |} ] |}.

(** ** Scoring ([calculateScore] of GamePlayer.tsx) *)

Record Result := { score : Z; isCorrect : bool }.

Section CalculateScore.

(** [utils/similarity] is imported by the component; the scoring code is
    read here for an arbitrary similarity function. *)
Variable calculateSimilarity : string -> string -> Q.

(** [Math.max(0, 1 - (timer / 30))] *)
Definition timeBonus (timer : Q) : Q := JsMath.max 0 (1 - timer / 30).

(** [track.artists[0].name]; reading [.name] of a missing first artist
    throws. *)
Definition primaryArtistName (track : SpotifyTrack) : option string :=
  match Spotify.artists track with
  | [] => None
  | a :: _ => Some (Spotify.artist_name a)
  end.

Definition calculateScore (titleGuess artistGuess : string)
    (track : SpotifyTrack) (timer : Q) : option Result :=
  match primaryArtistName track with
  | None => None
  | Some artistName =>
      let titleSimilarity := calculateSimilarity titleGuess (Spotify.name track) in
      let artistSimilarity := calculateSimilarity artistGuess artistName in
      let averageSimilarity := (titleSimilarity + artistSimilarity) / 2 in
      let timeBonus := timeBonus timer in
      let score := JsMath.round ((averageSimilarity * 80 + timeBonus * 20) * 100) in
      Some {| score := score;
              isCorrect := JsMath.gt titleSimilarity (8 # 10)
                           && JsMath.gt artistSimilarity (8 # 10) |}
  end.

End CalculateScore.

(** ** Scoring in binary64

    The numbers of the program are IEEE 754 doubles.  Bounds and
    monotonicity are the same over the rationals and are proved there; the
    value of the score itself depends on the rounding of every operation and
    is modelled here on the primitive binary64 floats. *)

Module Float64.

Import PrimFloat FloatOps SpecFloat.

Local Open Scope float_scope.

(** The literal [0.8] of the source: the double nearest to 8/10. *)
Definition literal_0_8 : float := 0x1.999999999999ap-1.


(** [Math.max] of two numbers: [NaN] if either is; of two zeros the
    positive one. *)
Definition max (x y : float) : float :=
  if is_nan x || is_nan y then nan
  else if x <? y then y
  else if y <? x then x
  else match classify x with FloatClass.NZero => y | _ => x end.

(** [Math.round]: the integer nearest to the exact value of [x], halves
    going up; [x] itself when it is integral, a zero, infinite or [NaN]; a
    zero result keeps the sign of [x].  A finite double is [m * 2^e]; with
    [e < 0] its magnitude is below [2^53], so the integer is a double. *)
Definition round (x : float) : float :=
  match Prim2SF x with
  | S754_finite s m e =>
      if (0 <=? e)%Z then x
      else
        let sm := if s then Z.neg m else Z.pos m in
        match ((2 * sm + 2 ^ (- e)) / 2 ^ (1 - e))%Z with
        | Z0 => if s then neg_zero else zero
        | Zpos p => SF2Prim (S754_finite false p 0)
        | Zneg p => SF2Prim (S754_finite true p 0)
        end
  | _ => x
  end.

Record Result := { score : float; isCorrect : bool }.

(** [Math.max(0, 1 - (timer / 30))] *)
Definition timeBonus (timer : float) : float := max 0 (1 - timer / 30).

(** [calculateScore], operation by operation, for the similarity function
    the component imports. *)
Definition calculateScore (calculateSimilarity : string -> string -> float)
    (titleGuess artistGuess : string) (track : SpotifyTrack) (timer : float)
    : option Result :=
  match primaryArtistName track with
  | None => None
  | Some artistName =>
      let titleSimilarity := calculateSimilarity titleGuess (Spotify.name track) in
      let artistSimilarity := calculateSimilarity artistGuess artistName in
      let averageSimilarity := (titleSimilarity + artistSimilarity) / 2 in
      let timeBonus := timeBonus timer in
      let score := round ((averageSimilarity * 80 + timeBonus * 20) * 100) in
      Some {| score := score;
              isCorrect := (literal_0_8 <? titleSimilarity)
                           && (literal_0_8 <? artistSimilarity) |}
  end.



End Float64.

(** ** Track selection and the played set (App.tsx) *)

Module App.

(** The [useState] cells of [App] that the selection code writes. *)
Record State := {
  currentTrack : option SpotifyTrack;
  error : option string;
  currentPlaylist : option SpotifyPlaylist;
  playedTracks : gset string
}.

Definition setCurrentTrack (v : option SpotifyTrack) (s : State) : State :=
  {| currentTrack := v; error := error s;
     currentPlaylist := currentPlaylist s; playedTracks := playedTracks s |}.

Definition setError (v : option string) (s : State) : State :=
  {| currentTrack := currentTrack s; error := v;
     currentPlaylist := currentPlaylist s; playedTracks := playedTracks s |}.

Definition setCurrentPlaylist (v : option SpotifyPlaylist) (s : State) : State :=
  {| currentTrack := currentTrack s; error := error s;
     currentPlaylist := v; playedTracks := playedTracks s |}.

(** [setPlayedTracks(prev => ...)]: the updater is applied to the latest
    value. *)
Definition setPlayedTracks (f : gset string -> gset string) (s : State) : State :=
  {| currentTrack := currentTrack s; error := error s;
     currentPlaylist := currentPlaylist s; playedTracks := f (playedTracks s) |}.

(** [useState] initial values. *)
Definition initial : State :=
  {| currentTrack := None; error := None;
     currentPlaylist := None; playedTracks := ∅ |}.

(** [selectRandomTrack]; [playedTracks] is the value the closure captured
    and [random] the number [Math.random()] returned. *)
Definition selectRandomTrack (playedTracks : gset string) (random : Q)
    (tracks : list SpotifyTrack) : option SpotifyTrack :=
  let availableTracks :=
    filter (λ track, Spotify.id track ∉ playedTracks) tracks in
  if decide (length availableTracks = 0%nat) then None
  else JsMath.index availableTracks
         (JsMath.floor (random * inject_Z (Z.of_nat (length availableTracks)))).

(** How [await getPlaylistTracks(playlist.id)] settles. *)
Inductive FetchOutcome :=
| Rejected
| Resolved (items : list Spotify.PlaylistItem).

Section PlaylistSelect.

(** [utils/validators] is imported by [App]; the selection code is read for
    an arbitrary track validator. *)
Variable validateTrack : SpotifyTrack -> bool.

(** [handlePlaylistSelect] from its call to the [await] (second component
    [true]) or to the early [return] (second component [false]). *)
Definition handlePlaylistSelect_call (playlist : SpotifyPlaylist) (s : State)
    : State * bool :=
  let s := setError None s in
  let s := setCurrentPlaylist (Some playlist) s in
  if (Spotify.tracks_total playlist =? 0)%Z then
    (setCurrentTrack None (setError (Some "This playlist is empty") s), false)
  else (s, true).

(** [handlePlaylistSelect] after the [await]; [closure] is the played set
    that [selectRandomTrack] captured when the handler was created. *)
Definition handlePlaylistSelect_settle (closure : gset string) (random : Q)
    (outcome : FetchOutcome) (s : State) : State :=
  match outcome with
  | Rejected =>
      setCurrentTrack None
        (setError (Some "Failed to load tracks from this playlist") s)
  | Resolved items =>
      let validTracks := List.filter validateTrack (map Spotify.track items) in
      if decide (length validTracks = 0%nat) then
        setCurrentTrack None
          (setError (Some "No playable tracks found in this playlist") s)
      else
        match selectRandomTrack closure random validTracks with
        | None =>
            setCurrentTrack None
              (setError (Some "You have played all tracks in this playlist!") s)
        | Some track =>
            setCurrentTrack (Some track)
              (setPlayedTracks (λ prev, prev ∪ {[ Spotify.id track ]}) s)
        end
  end.

(** One invocation of [handlePlaylistSelect] run to completion with nothing
    else written while it waits for its fetch: it goes on from the state its
    call left.  The handler was created by the render of state [s], so its
    closure holds [playedTracks s]. *)
Definition handlePlaylistSelect (playlist : SpotifyPlaylist) (random : Q)
    (outcome : FetchOutcome) (s : State) : State :=
  match handlePlaylistSelect_call playlist s with
  | (s', false) => s'
  | (s', true) => handlePlaylistSelect_settle (playedTracks s) random outcome s'
  end.

(** [handlePlayAgain] up to the first suspension. *)
Definition handlePlayAgain_call (s : State) : State :=
  match currentPlaylist s with
  | Some playlist => fst (handlePlaylistSelect_call playlist s)
  | None => s
  end.

(** [handlePlayAgain] run to completion. *)
Definition handlePlayAgain (random : Q) (outcome : FetchOutcome) (s : State)
    : State :=
  match currentPlaylist s with
  | Some playlist => handlePlaylistSelect playlist random outcome s
  | None => s
  end.

End PlaylistSelect.

(** The messages [handlePlaylistSelect] reports. *)
Definition selectionErrors : list string :=
  [ "This playlist is empty";
    "No playable tracks found in this playlist";
    "You have played all tracks in this playlist!";
    "Failed to load tracks from this playlist" ].

End App.

(** ** The round component (GamePlayer.tsx) *)

Module GamePlayer.

(** What the component asks of its collaborators, in call order. *)
Inductive Call :=
| PlayTrack (track : SpotifyTrack)
| TogglePlayback
| OnGameComplete (score : Z)
| OnPlayAgain.

(** One mounted component: its props, what [usePlayer] currently reports,
    its [useState] cells, its [useRef] cell, and the part of the environment
    it drives: the window's live intervals and the [handlePauseAndGuess]
    invocations suspended at their [await]. *)
Record State := {
  track : SpotifyTrack;
  isPlaying : bool;
  isInitialized : bool;
  timer : Q;
  isGuessing : bool;
  titleGuess : string;
  artistGuess : string;
  result : option Result;
  intervalRef : option positive;
  liveIntervals : gset positive;
  nextInterval : positive;
  pendingToggles : nat;
  calls : list Call
}.

Definition setTrack (v : SpotifyTrack) (s : State) : State :=
  {| track := v; isPlaying := isPlaying s; isInitialized := isInitialized s;
     timer := timer s; isGuessing := isGuessing s; titleGuess := titleGuess s;
     artistGuess := artistGuess s; result := result s;
     intervalRef := intervalRef s; liveIntervals := liveIntervals s;
     nextInterval := nextInterval s; pendingToggles := pendingToggles s;
     calls := calls s |}.

Definition setIsPlaying (v : bool) (s : State) : State :=
  {| track := track s; isPlaying := v; isInitialized := isInitialized s;
     timer := timer s; isGuessing := isGuessing s; titleGuess := titleGuess s;
     artistGuess := artistGuess s; result := result s;
     intervalRef := intervalRef s; liveIntervals := liveIntervals s;
     nextInterval := nextInterval s; pendingToggles := pendingToggles s;
     calls := calls s |}.

Definition setIsInitialized (v : bool) (s : State) : State :=
  {| track := track s; isPlaying := isPlaying s; isInitialized := v;
     timer := timer s; isGuessing := isGuessing s; titleGuess := titleGuess s;
     artistGuess := artistGuess s; result := result s;
     intervalRef := intervalRef s; liveIntervals := liveIntervals s;
     nextInterval := nextInterval s; pendingToggles := pendingToggles s;
     calls := calls s |}.

Definition setTimer (f : Q -> Q) (s : State) : State :=
  {| track := track s; isPlaying := isPlaying s;
     isInitialized := isInitialized s;
     timer := f (timer s); isGuessing := isGuessing s;
     titleGuess := titleGuess s;
     artistGuess := artistGuess s; result := result s;
     intervalRef := intervalRef s; liveIntervals := liveIntervals s;
     nextInterval := nextInterval s; pendingToggles := pendingToggles s;
     calls := calls s |}.

Definition setIsGuessing (v : bool) (s : State) : State :=
  {| track := track s; isPlaying := isPlaying s;
     isInitialized := isInitialized s;
     timer := timer s; isGuessing := v; titleGuess := titleGuess s;
     artistGuess := artistGuess s; result := result s;
     intervalRef := intervalRef s; liveIntervals := liveIntervals s;
     nextInterval := nextInterval s; pendingToggles := pendingToggles s;
     calls := calls s |}.

Definition setTitleGuess (v : string) (s : State) : State :=
  {| track := track s; isPlaying := isPlaying s;
     isInitialized := isInitialized s;
     timer := timer s; isGuessing := isGuessing s; titleGuess := v;
     artistGuess := artistGuess s; result := result s;
     intervalRef := intervalRef s; liveIntervals := liveIntervals s;
     nextInterval := nextInterval s; pendingToggles := pendingToggles s;
     calls := calls s |}.

Definition setArtistGuess (v : string) (s : State) : State :=
  {| track := track s; isPlaying := isPlaying s;
     isInitialized := isInitialized s;
     timer := timer s; isGuessing := isGuessing s; titleGuess := titleGuess s;
     artistGuess := v; result := result s;
     intervalRef := intervalRef s; liveIntervals := liveIntervals s;
     nextInterval := nextInterval s; pendingToggles := pendingToggles s;
     calls := calls s |}.

Definition setResult (v : option Result) (s : State) : State :=
  {| track := track s; isPlaying := isPlaying s;
     isInitialized := isInitialized s;
     timer := timer s; isGuessing := isGuessing s; titleGuess := titleGuess s;
     artistGuess := artistGuess s; result := v;
     intervalRef := intervalRef s; liveIntervals := liveIntervals s;
     nextInterval := nextInterval s; pendingToggles := pendingToggles s;
     calls := calls s |}.

Definition setPendingToggles (v : nat) (s : State) : State :=
  {| track := track s; isPlaying := isPlaying s;
     isInitialized := isInitialized s;
     timer := timer s; isGuessing := isGuessing s; titleGuess := titleGuess s;
     artistGuess := artistGuess s; result := result s;
     intervalRef := intervalRef s; liveIntervals := liveIntervals s;
     nextInterval := nextInterval s; pendingToggles := v;
     calls := calls s |}.

(** Record a call to a collaborator. *)
Definition call (c : Call) (s : State) : State :=
  {| track := track s; isPlaying := isPlaying s;
     isInitialized := isInitialized s;
     timer := timer s; isGuessing := isGuessing s; titleGuess := titleGuess s;
     artistGuess := artistGuess s; result := result s;
     intervalRef := intervalRef s; liveIntervals := liveIntervals s;
     nextInterval := nextInterval s; pendingToggles := pendingToggles s;
     calls := calls s ++ [c] |}.

(** [intervalRef.current = window.setInterval(..., 100)]: the window hands
    out a fresh non-zero handle and the interval is live from then on. *)
Definition setInterval (s : State) : State :=
  {| track := track s; isPlaying := isPlaying s;
     isInitialized := isInitialized s;
     timer := timer s; isGuessing := isGuessing s; titleGuess := titleGuess s;
     artistGuess := artistGuess s; result := result s;
     intervalRef := Some (nextInterval s);
     liveIntervals := liveIntervals s ∪ {[ nextInterval s ]};
     nextInterval := Pos.succ (nextInterval s);
     pendingToggles := pendingToggles s;
     calls := calls s |}.

(** [if (intervalRef.current) window.clearInterval(intervalRef.current)]:
    the handle stays in the ref, the interval is no longer live. *)
Definition clearInterval (s : State) : State :=
  match intervalRef s with
  | None => s
  | Some i =>
      {| track := track s; isPlaying := isPlaying s;
         isInitialized := isInitialized s;
         timer := timer s; isGuessing := isGuessing s;
         titleGuess := titleGuess s;
         artistGuess := artistGuess s; result := result s;
         intervalRef := intervalRef s;
         liveIntervals := liveIntervals s ∖ {[ i ]};
         nextInterval := nextInterval s;
         pendingToggles := pendingToggles s;
         calls := calls s |}
  end.

(** [!result] *)
Definition noResult (s : State) : bool :=
  match result s with None => true | Some _ => false end.

(** *** The two effects *)

(** [useEffect(..., [track, isInitialized])], body and cleanup. *)
Definition trackEffect (s : State) : State :=
  if isInitialized s then call (PlayTrack (track s)) s else s.

Definition trackEffect_cleanup (s : State) : State := clearInterval s.

(** The condition under which the timer effect starts an interval. *)
Definition ticking (s : State) : bool :=
  isPlaying s && negb (isGuessing s) && noResult s.

(** [useEffect(..., [isPlaying, isGuessing, result])], body and cleanup. *)
Definition timerEffect (s : State) : State :=
  if ticking s then setInterval s else clearInterval s.

Definition timerEffect_cleanup (s : State) : State := clearInterval s.

(** The callback of the interval: [setTimer(prev => prev + 0.1)]. *)
Definition tick (s : State) : State := setTimer (λ prev, prev + (1 # 10)) s.

(** Whether [result] is the same dependency as at the last commit.  The
    cell holds [null] or the object a handler stored; it is compared by
    content here, which agrees with the comparison by identity on every
    enabled event: a submit is enabled only on [null], play again only on an
    object. *)
Definition sameResult (a b : option Result) : bool :=
  match a, b with
  | None, None => true
  | Some x, Some y => (score x =? score y)%Z && eqb (isCorrect x) (isCorrect y)
  | _, _ => false
  end.

(** The commit after a render: an effect whose dependencies changed has its
    cleanup run, and then its body; cleanups run before bodies.  A track
    handed down by the parent is a new object, so [newTrack] marks the
    [track] dependency as changed. *)
Definition commit (newTrack : bool) (old new : State) : State :=
  let trackDeps :=
    newTrack || negb (eqb (isInitialized old) (isInitialized new)) in
  let timerDeps :=
    negb (eqb (isPlaying old) (isPlaying new))
    || negb (eqb (isGuessing old) (isGuessing new))
    || negb (sameResult (result old) (result new)) in
  let s := if trackDeps then trackEffect_cleanup new else new in
  let s := if timerDeps then timerEffect_cleanup s else s in
  let s := if trackDeps then trackEffect s else s in
  if timerDeps then timerEffect s else s.

(** The first render and its commit: every effect body runs. *)
Definition mount (track : SpotifyTrack) (isPlaying isInitialized : bool)
    : State :=
  timerEffect (trackEffect
    {| track := track; isPlaying := isPlaying;
       isInitialized := isInitialized;
       timer := 0; isGuessing := false; titleGuess := "";
       artistGuess := ""; result := None;
       intervalRef := None; liveIntervals := ∅; nextInterval := 1%positive;
       pendingToggles := 0; calls := [] |}).

Section Handlers.

Variable calculateSimilarity : string -> string -> Q.

(** *** Event handlers *)

(** [handlePauseAndGuess] from the click to its [await]: [togglePlayback()]
    is called and the handler is suspended. *)
Definition handlePauseAndGuess_call (s : State) : State :=
  setPendingToggles (S (pendingToggles s)) (call TogglePlayback s).

(** [handlePauseAndGuess] after the [await]: when the promise of
    [togglePlayback] is fulfilled the handler goes on to
    [setIsGuessing(true)]; when it is rejected the handler ends there. *)
Definition handlePauseAndGuess_settle (fulfilled : bool) (s : State) : State :=
  let s := setPendingToggles (pred (pendingToggles s)) s in
  if fulfilled then setIsGuessing true s else s.

(** [handleSubmitGuess]; nothing is set when [calculateScore] throws. *)
Definition handleSubmitGuess (s : State) : State :=
  match calculateScore calculateSimilarity
          (titleGuess s) (artistGuess s) (track s) (timer s) with
  | None => s
  | Some result => call (OnGameComplete (score result)) (setResult (Some result) s)
  end.

(** [handlePlayAgain] *)
Definition handlePlayAgain (s : State) : State :=
  let s := setTimer (λ _, 0) s in
  let s := setIsGuessing false s in
  let s := setTitleGuess "" s in
  let s := setArtistGuess "" s in
  let s := setResult None s in
  call OnPlayAgain s.

(** *** Events *)

Inductive Event :=
| TrackChanged (track : SpotifyTrack)      (* the parent passes a new track *)
| PlayerIsPlaying (isPlaying : bool)        (* usePlayer reports *)
| PlayerIsInitialized (isInitialized : bool)
| IntervalFired (handle : positive)         (* the window runs a callback *)
| ClickPauseAndGuess
| ToggleSettled (fulfilled : bool)          (* togglePlayback's promise *)
| TypeTitle (value : string)
| TypeArtist (value : string)
| ClickSubmitGuess
| ClickPlayAgain.

(** Which events can happen: a button or an input is there only in the
    branch of the render that draws it, an interval fires only while live,
    a promise settles only while a handler waits for it. *)
Definition enabled (s : State) (e : Event) : bool :=
  match e with
  | TrackChanged _ | PlayerIsPlaying _ | PlayerIsInitialized _ => true
  | IntervalFired i => bool_decide (i ∈ liveIntervals s)
  | ClickPauseAndGuess =>
      isInitialized s && noResult s && negb (isGuessing s)
  | ToggleSettled _ => negb (Nat.eqb (pendingToggles s) 0)
  | TypeTitle _ | TypeArtist _ | ClickSubmitGuess =>
      isInitialized s && noResult s && isGuessing s
  | ClickPlayAgain => isInitialized s && negb (noResult s)
  end.

(** The state update an event makes, before the commit. *)
Definition handle (e : Event) (s : State) : State :=
  match e with
  | TrackChanged t => setTrack t s
  | PlayerIsPlaying b => setIsPlaying b s
  | PlayerIsInitialized b => setIsInitialized b s
  | IntervalFired _ => tick s
  | ClickPauseAndGuess => handlePauseAndGuess_call s
  | ToggleSettled fulfilled => handlePauseAndGuess_settle fulfilled s
  | TypeTitle v => setTitleGuess v s
  | TypeArtist v => setArtistGuess v s
  | ClickSubmitGuess => handleSubmitGuess s
  | ClickPlayAgain => handlePlayAgain s
  end.

Definition isTrackChanged (e : Event) : bool :=
  match e with TrackChanged _ => true | _ => false end.

(** One event: the handler, the render, the commit. *)
Definition step (s : State) (e : Event) : State :=
  if enabled s e then commit (isTrackChanged e) s (handle e s) else s.

Definition run (s : State) (es : list Event) : State := foldl step s es.

(** States the component can be in. *)
Inductive reachable : State -> Prop :=
| reachable_mount track isPlaying isInitialized :
    reachable (mount track isPlaying isInitialized)
| reachable_step s e : reachable s -> reachable (step s e).

(** The round states of the session, read off the component's cells. *)
Inductive RoundState :=
| Uninitialized | AwaitingPlayback | Playing | Guessing | Scored.

Definition roundState (s : State) : RoundState :=
  if negb (noResult s) then Scored
  else if isGuessing s then Guessing
  else if isPlaying s then Playing
  else if isInitialized s then AwaitingPlayback
  else Uninitialized.

End Handlers.

(** The cells the effects never write: one state agrees with another on the
    props, on what the player reports and on every [useState] cell. *)
Definition sameRound (s s' : State) : Prop :=
  track s' = track s /\ isPlaying s' = isPlaying s
  /\ isInitialized s' = isInitialized s /\ timer s' = timer s
  /\ isGuessing s' = isGuessing s /\ titleGuess s' = titleGuess s
  /\ artistGuess s' = artistGuess s /\ result s' = result s
  /\ pendingToggles s' = pendingToggles s.

(** A live interval is the one held in [intervalRef], and it is live only
    while the timer effect's condition holds. *)
Definition timerInvariant (s : State) : Prop :=
  forall i, i ∈ liveIntervals s -> intervalRef s = Some i /\ ticking s = true.

(** A round in which two ticks have elapsed and the track is playing. *)
Definition midPlaying : State :=
  run Similarity.calculateSimilarity (mount bohemianRhapsody false true)
    [ PlayerIsPlaying true; IntervalFired 1; IntervalFired 1 ].

(** The same round after the pause button, the player's pause and a typed
    title. *)
Definition midGuessing : State :=
  run Similarity.calculateSimilarity midPlaying
    [ ClickPauseAndGuess; IntervalFired 1; PlayerIsPlaying false;
      ToggleSettled true; TypeTitle "bohemian" ].

(** The same round after the guess was completed and submitted. *)
Definition scored : State :=
  run Similarity.calculateSimilarity midGuessing
    [ TypeTitle "bohemian rhapsody"; TypeArtist "Queen "; ClickSubmitGuess ].

End GamePlayer.

(** ** The rest of [App]: loading the playlists, repeated selection, routes *)

Module AppShell.

(** A playlist as [getUserPlaylists] delivers it: the name, the images and
    the track count may be missing ([null] or [undefined], here [None]). *)
Record RawPlaylist := {
  raw_id : string;
  raw_name : option string;
  raw_images : option (list string);
  raw_tracks : option (option Z)
}.

(** A playlist as [setPlaylists] stores it. *)
Record LoadedPlaylist := {
  loaded_id : string;
  loaded_name : string;
  loaded_images : list string;
  loaded_total : Z
}.

(** [playlist.name || 'Untitled Playlist']: the empty string is falsy. *)
Definition nameOrUntitled (name : option string) : string :=
  match name with
  | Some n => if String.eqb n "" then "Untitled Playlist" else n
  | None => "Untitled Playlist"
  end.

(** [playlist.tracks?.total ?? 0] *)
Definition totalOrZero (tracks : option (option Z)) : Z :=
  match tracks with
  | Some (Some total) => total
  | _ => 0%Z
  end.

(** The object the [map] of the mount effect builds:
    [{...playlist, name: ..., images: playlist.images || [], tracks: ...}]. *)
Definition normalizePlaylist (playlist : RawPlaylist) : LoadedPlaylist :=
  {| loaded_id := raw_id playlist;
     loaded_name := nameOrUntitled (raw_name playlist);
     loaded_images := default [] (raw_images playlist);
     loaded_total := totalOrZero (raw_tracks playlist) |}.

(** [data.items.filter(validatePlaylist).map(...)], for the validator that
    [App] imports from [utils/validators]. *)
Definition loadPlaylists (validatePlaylist : RawPlaylist -> bool)
    (items : list RawPlaylist) : list LoadedPlaylist :=
  map normalizePlaylist (List.filter validatePlaylist items).

(** What [handlePlaylistSelect] reads of a stored playlist. *)
Definition selectable (playlist : LoadedPlaylist) : SpotifyPlaylist :=
  {| Spotify.playlist_id := loaded_id playlist;
     Spotify.tracks_total := loaded_total playlist |}.

(** An invocation of [handlePlaylistSelect] that has completed.  When the
    handler returns before its fetch, nothing else has run.  Otherwise it
    goes on when the fetch settles, in the state [atSettle] it then finds:
    the state its call left, or what other handlers have made of it while
    the fetch was pending.  Its closure still holds the played set of the
    render that created it. *)
Definition completedSelect (validateTrack : SpotifyTrack -> bool)
    (playlist : SpotifyPlaylist) (random : Q) (outcome : App.FetchOutcome)
    (s atSettle : App.State) : App.State :=
  match App.handlePlaylistSelect_call playlist s with
  | (s0, false) => s0
  | (_, true) =>
      App.handlePlaylistSelect_settle validateTrack (App.playedTracks s)
        random outcome atSettle
  end.

(** The [catch] of [getCurrentUser()] in the mount effect:
    [setError('Failed to load user profile')]. *)
Definition userProfileFailed (s : App.State) : App.State :=
  App.setError (Some "Failed to load user profile") s.

(** [handlePlaylistSelect] invoked once per random number on the same
    playlist, each invocation completed before the next is made and nothing
    else written in between, the fetch delivering the same items every
    time. *)
Definition selectRepeatedly (validateTrack : SpotifyTrack -> bool)
    (playlist : SpotifyPlaylist) (items : list Spotify.PlaylistItem)
    (randoms : list Q) (s : App.State) : App.State :=
  foldl (λ s random,
           App.handlePlaylistSelect validateTrack playlist random
             (App.Resolved items) s)
        s randoms.

(** The tracks of a response that pass validation. *)
Definition validTracksOf (validateTrack : SpotifyTrack -> bool)
    (items : list Spotify.PlaylistItem) : list SpotifyTrack :=
  List.filter validateTrack (map Spotify.track items).

(** The state after the two writes every invocation of
    [handlePlaylistSelect] starts with. *)
Definition entered (playlist : SpotifyPlaylist) (s : App.State) : App.State :=
  App.setCurrentPlaylist (Some playlist) (App.setError None s).

(** The valid tracks of a response whose identifiers are not yet in the
    played set. *)
Definition unplayed (validateTrack : SpotifyTrack -> bool)
    (items : list Spotify.PlaylistItem) (s : App.State) : list SpotifyTrack :=
  filter (λ t, Spotify.id t ∉ App.playedTracks s)
         (validTracksOf validateTrack items).

(** A playlist of two tracks, its response, and a session in which the
    first track has been played. *)
Definition queenPlaylist : SpotifyPlaylist :=
  {| Spotify.playlist_id := "p1"; Spotify.tracks_total := 2 |}.

Definition queenItems : list Spotify.PlaylistItem :=
  [ {| Spotify.track := bohemianRhapsody |};
    {| Spotify.track := underPressure |} ].

Definition afterFirstRound : App.State :=
  {| App.currentTrack := Some bohemianRhapsody; App.error := None;
     App.currentPlaylist := Some queenPlaylist;
     App.playedTracks := {[ "t1" ]} |}.

(** The routes of the [Routes] element and what each renders. *)
Inductive Path := CallbackPath | RootPath | LoginPath.

Inductive View :=
| CallbackPage
| HomePage
| LoginPage
| Navigate (to : Path).

(** [element] of the route at [path]; [isAuthenticated] is
    [Boolean(getStoredAccessToken())]. *)
Definition route (isAuthenticated : bool) (path : Path) : View :=
  match path with
  | CallbackPath => CallbackPage
  | RootPath => if isAuthenticated then HomePage else Navigate LoginPath
  | LoginPath => if isAuthenticated then Navigate RootPath else LoginPage
  end.

(** Follow [Navigate] elements, at most [fuel] of them. *)
Fixpoint settleRoute (fuel : nat) (isAuthenticated : bool) (path : Path)
    : option View :=
  match route isAuthenticated path with
  | Navigate to =>
      match fuel with
      | O => None
      | S fuel' => settleRoute fuel' isAuthenticated to
      end
  | view => Some view
  end.

End AppShell.

(** ** The log of calls of the round component *)

Module RoundLog.

Import GamePlayer.

(** How many times [onGameComplete] was called. *)
Fixpoint completions (calls : list Call) : nat :=
  match calls with
  | [] => 0
  | OnGameComplete _ :: rest => S (completions rest)
  | _ :: rest => completions rest
  end.

(** How many times [onPlayAgain] was called. *)
Fixpoint playAgains (calls : list Call) : nat :=
  match calls with
  | [] => 0
  | OnPlayAgain :: rest => S (playAgains rest)
  | _ :: rest => playAgains rest
  end.

(** How many times [playTrack] was called. *)
Fixpoint playRequests (calls : list Call) : nat :=
  match calls with
  | [] => 0
  | PlayTrack _ :: rest => S (playRequests rest)
  | _ :: rest => playRequests rest
  end.

(** 1 when the result cell holds a result, 0 when it is empty. *)
Definition hasResult (s : State) : nat :=
  match result s with Some _ => 1 | None => 0 end.

(** The elapsed time is a whole number of ticks of a tenth of a second. *)
Definition wholeTicks (s : State) : Prop :=
  exists n : nat, timer s == inject_Z (Z.of_nat n) * (1 # 10).

(** The scores a state holds or has reported are within 0..10000. *)
Definition scoresBounded (s : State) : Prop :=
  (forall r, result s = Some r -> (0 <= score r <= 10000)%Z)
  /\ (forall z, OnGameComplete z ∈ calls s -> (0 <= z <= 10000)%Z).

(** The sample round with both guesses typed, before the submission. *)
Definition readyToSubmit : State :=
  run Similarity.calculateSimilarity midGuessing
    [ TypeTitle "bohemian rhapsody"; TypeArtist "Queen " ].

(** A similarity that only knows equal and different. *)
Definition exactMatch (a b : string) : Q :=
  if String.eqb a b then 1 else 0.

(** A round scored under [exactMatch]. *)
Definition scoredExactly : State :=
  run exactMatch (mount bohemianRhapsody false true)
    [ PlayerIsPlaying true; IntervalFired 1; ClickPauseAndGuess;
      PlayerIsPlaying false; ToggleSettled true;
      TypeTitle "Bohemian Rhapsody"; TypeArtist "Queen"; ClickSubmitGuess ].

End RoundLog.

(** * Properties *)

(** ** Facts about the number operations *)

(** Linear arithmetic over [Q] with divisions by literals written as
    multiplications. *)
Ltac qlra := unfold Qdiv in *; cbn [Qinv Qnum Qden] in *; lra.

Lemma gt_true_iff x y : JsMath.gt x y = true <-> y < x.
Proof.
  unfold JsMath.gt.
  rewrite negb_true_iff, <- not_true_iff_false, Qle_bool_iff.
  split; [apply Qnot_le_lt | apply Qlt_not_le].
Qed.

Lemma gt_false_iff x y : JsMath.gt x y = false <-> x <= y.
Proof. unfold JsMath.gt. rewrite negb_false_iff. apply Qle_bool_iff. Qed.

Lemma floor_lt x (n : Z) : x < inject_Z n -> (JsMath.floor x < n)%Z.
Proof.
  intros Hx. unfold JsMath.floor. rewrite Zlt_Qlt.
  eapply Qle_lt_trans; [apply Qfloor_le | exact Hx].
Qed.

Lemma floor_nonneg x : 0 <= x -> (0 <= JsMath.floor x)%Z.
Proof.
  intros Hx. unfold JsMath.floor.
  change 0%Z with (Qfloor 0). now apply Qfloor_resp_le.
Qed.

Lemma round_nonneg x : 0 <= x -> (0 <= JsMath.round x)%Z.
Proof. intros Hx. apply floor_nonneg. lra. Qed.

Lemma round_le x (n : Z) : x <= inject_Z n -> (JsMath.round x <= n)%Z.
Proof.
  intros Hx. apply Z.lt_succ_r, floor_lt.
  rewrite <- Z.add_1_r, inject_Z_plus.
  change (inject_Z 1) with 1. generalize dependent (inject_Z n).
  intros q Hq. lra.
Qed.

Lemma timeBonus_cases t :
  (t <= 30 /\ timeBonus t == 1 - t / 30) \/ (30 <= t /\ timeBonus t == 0).
Proof.
  unfold timeBonus, JsMath.max.
  destruct (Q.max_spec_le 0 (1 - t / 30)) as [[Hle Heq] | [Hle Heq]].
  - left. split; [qlra | exact Heq].
  - right. split; [qlra | exact Heq].
Qed.

Lemma timeBonus_range t : 0 <= t -> 0 <= timeBonus t <= 1.
Proof.
  intros Ht. destruct (timeBonus_cases t) as [[H1 H2] | [H1 H2]];
    rewrite H2; qlra.
Qed.

(** ** Scoring *)

Module Float64Facts.

Import PrimFloat.

Local Open Scope float_scope.



End Float64Facts.

(** C2 (as amended): for similarities in [0,1] and an elapsed time t >= 0,
    the score is an integer between 0 and 10000 inclusive: the weights 80
    and 20 add up to 100 and the sum is multiplied by 100 once more. *)
Theorem calculateScore_range (similarity : string -> string -> Q)
    (titleGuess artistGuess : string) (track : SpotifyTrack) (t : Q)
    (artist : Spotify.Artist) (others : list Spotify.Artist) :
  Spotify.artists track = artist :: others ->
  0 <= similarity titleGuess (Spotify.name track) <= 1 ->
  0 <= similarity artistGuess (Spotify.artist_name artist) <= 1 ->
  0 <= t ->
  exists res,
    calculateScore similarity titleGuess artistGuess track t = Some res
    /\ (0 <= score res <= 10000)%Z.
Proof.
  intros Hartists Htitle Hartist Ht.
  unfold calculateScore, primaryArtistName. rewrite Hartists.
  eexists. split; [reflexivity |]. cbn [score].
  pose proof (timeBonus_range t Ht) as Hbonus.
  generalize dependent (timeBonus t). intros bonus Hbonus.
  generalize dependent (similarity titleGuess (Spotify.name track)).
  intros titleSim Htitle.
  generalize dependent (similarity artistGuess (Spotify.artist_name artist)).
  intros artistSim Hartist.
  split.
  - apply round_nonneg. qlra.
  - apply round_le. change (inject_Z 10000) with 10000. qlra.
Qed.

Lemma calculateScore_range_witness :
  exists res,
    calculateScore Similarity.calculateSimilarity
      "bohemian rhapsody" "Queen " bohemianRhapsody 2 = Some res
    /\ (0 <= score res <= 10000)%Z.
Proof.
  apply (calculateScore_range Similarity.calculateSimilarity
           "bohemian rhapsody" "Queen " bohemianRhapsody 2
           {| Spotify.artist_name := "Queen" |} []).
  - reflexivity.
  - vm_compute. split; discriminate.
  - vm_compute. split; discriminate.
  - vm_compute. discriminate.
Defined.

(** Against C2 as stated (a score within 0..100): a perfect guess at time 0
    scores 10000. *)
Lemma calculateScore_above_100 :
  0 <= Similarity.calculateSimilarity "Bohemian Rhapsody" "Bohemian Rhapsody" <= 1
  /\ 0 <= Similarity.calculateSimilarity "Queen" "Queen" <= 1
  /\ calculateScore Similarity.calculateSimilarity
       "Bohemian Rhapsody" "Queen" bohemianRhapsody 0
     = Some {| score := 10000; isCorrect := true |}
  /\ ~ (0 <= 10000 <= 100)%Z.
Proof.
  split; [vm_compute; split; discriminate |].
  split; [vm_compute; split; discriminate |].
  split; [vm_compute; reflexivity | lia].
Qed.

(** C4: the time bonus is 1 at 0 seconds, 0 at 30 seconds and 0 at 60
    seconds (clamped, never negative), and does not increase with the
    elapsed time. *)
Theorem timeBonus_decreasing (t1 t2 : Q) :
  t1 <= t2 ->
  timeBonus 0 == 1 /\ timeBonus 30 == 0 /\ timeBonus 60 == 0
  /\ 0 <= timeBonus t2 <= timeBonus t1.
Proof.
  intros Hle.
  split; [vm_compute; reflexivity |].
  split; [vm_compute; reflexivity |].
  split; [vm_compute; reflexivity |].
  destruct (timeBonus_cases t1) as [[H1 E1] | [H1 E1]],
           (timeBonus_cases t2) as [[H2 E2] | [H2 E2]];
    rewrite E1, E2; qlra.
Qed.

Lemma timeBonus_decreasing_witness :
  timeBonus 0 == 1 /\ timeBonus 30 == 0 /\ timeBonus 60 == 0
  /\ 0 <= timeBonus 45 <= timeBonus 12.
Proof. apply (timeBonus_decreasing 12 45). vm_compute. discriminate. Defined.

(** ** Track selection *)

Lemma index_Some {A} (arr : list A) (i : Z) (x : A) :
  JsMath.index arr i = Some x -> x ∈ arr.
Proof.
  unfold JsMath.index. destruct (i <? 0)%Z; [discriminate |].
  apply list_elem_of_lookup_2.
Qed.

Lemma index_in_range {A} (arr : list A) (i : Z) :
  (0 <= i < Z.of_nat (length arr))%Z -> is_Some (JsMath.index arr i).
Proof.
  intros [Hlo Hhi]. unfold JsMath.index.
  destruct (Z.ltb_spec i 0) as [Hneg | _]; [lia |].
  apply lookup_lt_is_Some. lia.
Qed.

(** [Math.floor(Math.random() * n)] is a valid index of an array of length
    [n > 0]. *)
Lemma random_index_in_range (random : Q) (n : nat) :
  0 <= random < 1 -> (0 < n)%nat ->
  (0 <= JsMath.floor (random * inject_Z (Z.of_nat n)) < Z.of_nat n)%Z.
Proof.
  intros [Hlo Hhi] Hn.
  assert (Hpos : 0 < inject_Z (Z.of_nat n)).
  { change 0 with (inject_Z 0). rewrite <- Zlt_Qlt. lia. }
  split.
  - apply floor_nonneg. apply Qmult_le_0_compat; [exact Hlo |].
    apply Qlt_le_weak, Hpos.
  - apply floor_lt.
    apply Qlt_le_trans with (1 * inject_Z (Z.of_nat n)).
    + apply Qmult_lt_compat_r; assumption.
    + rewrite Qmult_1_l. apply Qle_refl.
Qed.

Lemma selectRandomTrack_Some played random tracks t :
  App.selectRandomTrack played random tracks = Some t ->
  t ∈ tracks /\ Spotify.id t ∉ played.
Proof.
  unfold App.selectRandomTrack. case_decide; [discriminate |].
  intros Hidx. apply index_Some, list_elem_of_filter in Hidx.
  destruct Hidx; split; assumption.
Qed.

Lemma selectRandomTrack_available played random tracks t :
  0 <= random < 1 -> t ∈ tracks -> Spotify.id t ∉ played ->
  is_Some (App.selectRandomTrack played random tracks).
Proof.
  intros Hrandom Hin Hfresh. unfold App.selectRandomTrack.
  assert (Havail : t ∈ filter (λ track, Spotify.id track ∉ played) tracks).
  { apply list_elem_of_filter. split; assumption. }
  case_decide as Hlen.
  - apply nil_length_inv in Hlen. rewrite Hlen in Havail.
    exfalso. eapply not_elem_of_nil, Havail.
  - apply index_in_range, random_index_in_range; [exact Hrandom | lia].
Qed.

(** C3: [selectRandomTrack] returns no track exactly when every candidate's
    identifier is in the played set; a track it returns is a candidate whose
    identifier is not in the played set; and when a single candidate is
    unplayed, it returns that candidate whatever the random number. *)
Theorem selectRandomTrack_draw (played : gset string) (random : Q)
    (tracks : list SpotifyTrack) :
  0 <= random < 1 ->
  (App.selectRandomTrack played random tracks = None
     <-> forall t, t ∈ tracks -> Spotify.id t ∈ played)
  /\ (forall t, App.selectRandomTrack played random tracks = Some t ->
        t ∈ tracks /\ Spotify.id t ∉ played)
  /\ (forall t, t ∈ tracks -> Spotify.id t ∉ played ->
        (forall t', t' ∈ tracks -> Spotify.id t' ∉ played -> t' = t) ->
        App.selectRandomTrack played random tracks = Some t).
Proof.
  intros Hrandom. split; [| split].
  - split.
    + intros Hnone t Hin.
      destruct (decide (Spotify.id t ∈ played)) as [Hplayed | Hfresh];
        [exact Hplayed |].
      destruct (selectRandomTrack_available played random tracks t
                  Hrandom Hin Hfresh) as [t' Ht'].
      congruence.
    + intros Hall.
      destruct (App.selectRandomTrack played random tracks) as [t |] eqn:Hsel;
        [| reflexivity].
      apply selectRandomTrack_Some in Hsel. destruct Hsel as [Hin Hfresh].
      exfalso. apply Hfresh, Hall, Hin.
  - intros t. apply selectRandomTrack_Some.
  - intros t Hin Hfresh Hunique.
    destruct (selectRandomTrack_available played random tracks t
                Hrandom Hin Hfresh) as [t' Ht'].
    rewrite Ht'. f_equal.
    apply selectRandomTrack_Some in Ht'. destruct Ht' as [Hin' Hfresh'].
    apply Hunique; assumption.
Qed.

Lemma selectRandomTrack_draw_witness :
  App.selectRandomTrack {[ "t1" ]} (7 # 10) [bohemianRhapsody; underPressure]
  = Some underPressure.
Proof.
  assert (Hrandom : 0 <= 7 # 10 < 1) by (split; [discriminate | reflexivity]).
  apply (selectRandomTrack_draw {[ "t1" ]} (7 # 10)
           [bohemianRhapsody; underPressure] Hrandom).
  - apply list_elem_of_In. right. left. reflexivity.
  - vm_compute. intros H. discriminate H.
  - intros t' Hin Hfresh. apply list_elem_of_In in Hin.
    destruct Hin as [<- | [<- | []]]; [| reflexivity].
    exfalso. apply Hfresh. vm_compute. reflexivity.
Defined.

(** ** Playlist selection *)

Section PlaylistSelectFacts.

Variable validateTrack : SpotifyTrack -> bool.

Lemma handlePlaylistSelect_call_played playlist s :
  App.playedTracks (App.handlePlaylistSelect_call playlist s).1
  = App.playedTracks s.
Proof.
  unfold App.handlePlaylistSelect_call.
  destruct (Spotify.tracks_total playlist =? 0)%Z; reflexivity.
Qed.

Lemma handlePlaylistSelect_settle_played closure random outcome s :
  App.playedTracks s
  ⊆ App.playedTracks
      (App.handlePlaylistSelect_settle validateTrack closure random outcome s).
Proof.
  unfold App.handlePlaylistSelect_settle.
  destruct outcome as [| items]; [reflexivity |].
  case_decide; [reflexivity |].
  destruct (App.selectRandomTrack _ _ _); [| reflexivity].
  cbn. set_solver.
Qed.

Lemma handlePlaylistSelect_played playlist random outcome s :
  App.playedTracks s
  ⊆ App.playedTracks
      (App.handlePlaylistSelect validateTrack playlist random outcome s).
Proof.
  unfold App.handlePlaylistSelect.
  pose proof (handlePlaylistSelect_call_played playlist s) as Hcall.
  destruct (App.handlePlaylistSelect_call playlist s) as [s' [|]];
    cbn in Hcall.
  - rewrite <- Hcall at 1. apply handlePlaylistSelect_settle_played.
  - rewrite Hcall. reflexivity.
Qed.

(** C10 (as amended): a completed invocation of [handlePlaylistSelect],
    whatever other handlers did while it waited for its fetch, leaves either
    a current track whose identifier is in the played set, with the error
    message that was there when the fetch settled, or no current track and
    one of the four error messages; and when nothing was written while it
    waited, the error beside a current track is null. *)
Theorem completedSelect_outcome (playlist : SpotifyPlaylist)
    (random : Q) (outcome : App.FetchOutcome) (s atSettle : App.State) :
  let s' := AppShell.completedSelect validateTrack playlist random outcome
              s atSettle in
  let undisturbed :=
    AppShell.completedSelect validateTrack playlist random outcome
      s (App.handlePlaylistSelect_call playlist s).1 in
  ((exists t, App.currentTrack s' = Some t
              /\ Spotify.id t ∈ App.playedTracks s'
              /\ App.error s' = App.error atSettle)
   \/ (App.currentTrack s' = None
       /\ exists message, App.error s' = Some message
                          /\ message ∈ App.selectionErrors))
  /\ undisturbed
     = App.handlePlaylistSelect validateTrack playlist random outcome s
  /\ (forall t, App.currentTrack undisturbed = Some t ->
                App.error undisturbed = None).
Proof.
  cbn zeta. unfold AppShell.completedSelect, App.handlePlaylistSelect.
  unfold App.handlePlaylistSelect_call.
  destruct (Spotify.tracks_total playlist =? 0)%Z; cbn [fst snd].
  - split; [| split; [reflexivity | cbn; discriminate]].
    right. split; [reflexivity |]. eexists. split; [reflexivity |].
    unfold App.selectionErrors. set_solver.
  - unfold App.handlePlaylistSelect_settle.
    destruct outcome as [| items].
    + split; [| split; [reflexivity | cbn; discriminate]].
      right. split; [reflexivity |]. eexists. split; [reflexivity |].
      unfold App.selectionErrors. set_solver.
    + case_decide.
      * split; [| split; [reflexivity | cbn; discriminate]].
        right. split; [reflexivity |]. eexists. split; [reflexivity |].
        unfold App.selectionErrors. set_solver.
      * destruct (App.selectRandomTrack _ _ _) as [t |].
        -- split; [| split; [reflexivity | cbn; reflexivity]].
           left. exists t. cbn. split; [reflexivity |].
           split; [set_solver | reflexivity].
        -- split; [| split; [reflexivity | cbn; discriminate]].
           right. split; [reflexivity |]. eexists. split; [reflexivity |].
           unfold App.selectionErrors. set_solver.
Qed.

End PlaylistSelectFacts.

(** Against C10 as stated (a current track comes with a null error): the
    request for the user profile fails while the invocation waits for its
    fetch; the invocation completes with a current track beside that
    error. *)
Lemma track_beside_error :
  let s := App.initial in
  let pending := (App.handlePlaylistSelect_call AppShell.queenPlaylist s).1 in
  let s' := AppShell.completedSelect (λ _, true) AppShell.queenPlaylist (1 # 3)
              (App.Resolved AppShell.queenItems) s
              (AppShell.userProfileFailed pending) in
  (App.handlePlaylistSelect_call AppShell.queenPlaylist s).2 = true
  /\ App.currentTrack s' = Some bohemianRhapsody
  /\ App.error s' = Some "Failed to load user profile".
Proof. cbn zeta. split; [| split]; vm_compute; reflexivity. Qed.

(** ** The round component *)

Module GamePlayerFacts.

Import GamePlayer.

(** *** What the effects leave alone *)

Lemma sameRound_refl s : sameRound s s.
Proof. unfold sameRound. tauto. Qed.

Lemma sameRound_trans s1 s2 s3 :
  sameRound s1 s2 -> sameRound s2 s3 -> sameRound s1 s3.
Proof. unfold sameRound. intuition congruence. Qed.

Lemma sameRound_ticking s s' : sameRound s s' -> ticking s' = ticking s.
Proof.
  unfold sameRound, ticking, noResult.
  intros (_ & -> & _ & _ & -> & _ & _ & -> & _). reflexivity.
Qed.

Lemma clearInterval_same s : sameRound s (clearInterval s).
Proof.
  unfold clearInterval.
  destruct (intervalRef s); unfold sameRound; cbn; tauto.
Qed.

Lemma clearInterval_ref s : intervalRef (clearInterval s) = intervalRef s.
Proof. unfold clearInterval. destruct (intervalRef s) eqn:E; cbn; congruence. Qed.

Lemma clearInterval_calls s : calls (clearInterval s) = calls s.
Proof. unfold clearInterval. destruct (intervalRef s); reflexivity. Qed.

Lemma clearInterval_live s i :
  i ∈ liveIntervals (clearInterval s)
  <-> i ∈ liveIntervals s /\ intervalRef s ≠ Some i.
Proof.
  unfold clearInterval. destruct (intervalRef s) as [j |]; cbn.
  - rewrite elem_of_difference, elem_of_singleton.
    split; intros [H1 H2]; (split; [exact H1 | congruence]).
  - split; [intros H; split; [exact H | discriminate] | tauto].
Qed.

Lemma trackEffect_same s : sameRound s (trackEffect s).
Proof.
  unfold trackEffect. destruct (isInitialized s) eqn:E;
    unfold sameRound; cbn; tauto.
Qed.

Lemma trackEffect_ref s : intervalRef (trackEffect s) = intervalRef s.
Proof. unfold trackEffect. destruct (isInitialized s); reflexivity. Qed.

Lemma trackEffect_live s : liveIntervals (trackEffect s) = liveIntervals s.
Proof. unfold trackEffect. destruct (isInitialized s); reflexivity. Qed.

Lemma trackEffect_calls s :
  calls (trackEffect s)
  = calls s ++ (if isInitialized s then [PlayTrack (track s)] else []).
Proof.
  unfold trackEffect. destruct (isInitialized s); cbn;
    [reflexivity | symmetry; apply app_nil_r].
Qed.

Lemma setInterval_same s : sameRound s (setInterval s).
Proof. unfold sameRound; cbn; tauto. Qed.

Lemma timerEffect_same s : sameRound s (timerEffect s).
Proof.
  unfold timerEffect. destruct (ticking s);
    [apply setInterval_same | apply clearInterval_same].
Qed.

Lemma timerEffect_calls s : calls (timerEffect s) = calls s.
Proof.
  unfold timerEffect. destruct (ticking s);
    [reflexivity | apply clearInterval_calls].
Qed.

Lemma commit_same newTrack old new : sameRound new (commit newTrack old new).
Proof.
  unfold commit, trackEffect_cleanup, timerEffect_cleanup.
  repeat match goal with
  | |- context [if ?b then _ else _] =>
      lazymatch b with
      | isInitialized _ => fail
      | ticking _ => fail
      | _ => destruct b
      end
  end;
  repeat first
    [ apply sameRound_refl
    | eapply sameRound_trans; [| apply timerEffect_same]
    | eapply sameRound_trans; [| apply trackEffect_same]
    | eapply sameRound_trans; [| apply clearInterval_same] ].
Qed.

Lemma commit_calls newTrack old new :
  calls (commit newTrack old new)
  = calls new
    ++ (if (newTrack || negb (eqb (isInitialized old) (isInitialized new)))
           && isInitialized new
        then [PlayTrack (track new)] else []).
Proof.
  unfold commit, trackEffect_cleanup, timerEffect_cleanup.
  destruct (newTrack || negb (eqb (isInitialized old) (isInitialized new)));
    cbn [andb].
  - assert (Hc : forall s, sameRound new s -> calls s = calls new ->
                 calls (trackEffect s)
                 = calls new
                   ++ (if isInitialized new then [PlayTrack (track new)] else [])).
    { intros s Hs Hcs. rewrite trackEffect_calls, Hcs.
      destruct Hs as (-> & _ & -> & _). reflexivity. }
    destruct (_ || _ || _).
    + rewrite timerEffect_calls. apply Hc.
      * eapply sameRound_trans; apply clearInterval_same.
      * rewrite !clearInterval_calls. reflexivity.
    + apply Hc; [apply clearInterval_same | apply clearInterval_calls].
  - rewrite app_nil_r. destruct (_ || _ || _).
    + rewrite timerEffect_calls. apply clearInterval_calls.
    + reflexivity.
Qed.

(** *** The timer invariant *)

Lemma timerEffect_invariant s :
  (forall i, i ∉ liveIntervals s) -> timerInvariant (timerEffect s).
Proof.
  intros Hnone i. unfold timerEffect. destruct (ticking s) eqn:Hticking.
  - cbn [liveIntervals intervalRef setInterval].
    rewrite elem_of_union, elem_of_singleton.
    intros [Hlive | ->]; [exfalso; eapply Hnone, Hlive |].
    split; [reflexivity |].
    rewrite (sameRound_ticking s); [exact Hticking | apply setInterval_same].
  - rewrite clearInterval_live. intros [Hlive _].
    exfalso. eapply Hnone, Hlive.
Qed.

Lemma mount_invariant track isPlaying isInitialized :
  timerInvariant (mount track isPlaying isInitialized).
Proof.
  unfold mount. apply timerEffect_invariant.
  intros i. rewrite trackEffect_live. cbn. apply not_elem_of_empty.
Qed.

(** Dependencies of the timer effect that did not change give the same
    condition. *)
Lemma timerDeps_ticking old new :
  negb (eqb (isPlaying old) (isPlaying new))
  || negb (eqb (isGuessing old) (isGuessing new))
  || negb (sameResult (result old) (result new)) = false ->
  ticking new = ticking old.
Proof.
  intros H. apply orb_false_elim in H. destruct H as [H Hresult].
  apply orb_false_elim in H. destruct H as [Hplaying Hguessing].
  apply negb_false_iff, eqb_prop in Hplaying, Hguessing.
  apply negb_false_iff in Hresult.
  unfold ticking, noResult. rewrite Hplaying, Hguessing.
  destruct (result old), (result new); try discriminate; reflexivity.
Qed.

Lemma commit_invariant newTrack old new :
  timerInvariant old ->
  liveIntervals new = liveIntervals old ->
  intervalRef new = intervalRef old ->
  timerInvariant (commit newTrack old new).
Proof.
  intros Hinv Hlive Href. unfold commit, trackEffect_cleanup, timerEffect_cleanup.
  assert (Hcleared : forall i, i ∉ liveIntervals (clearInterval new)).
  { intros i. rewrite clearInterval_live, Hlive, Href. intros [Hi Hne].
    apply Hne, Hinv, Hi. }
  destruct (_ || _ || _) eqn:HtimerDeps.
  - apply timerEffect_invariant. intros i.
    destruct (newTrack || _).
    + rewrite trackEffect_live, clearInterval_live. intros [Hi _].
      eapply Hcleared, Hi.
    + apply Hcleared.
  - apply timerDeps_ticking in HtimerDeps.
    destruct (newTrack || _).
    + intros i. rewrite trackEffect_live. intros Hi.
      exfalso. eapply Hcleared, Hi.
    + intros i. rewrite Hlive, Href, HtimerDeps. apply Hinv.
Qed.

Section Steps.

Variable similarity : string -> string -> Q.

Lemma handle_live e s :
  liveIntervals (handle similarity e s) = liveIntervals s.
Proof.
  destruct e; cbn; try reflexivity.
  - unfold handlePauseAndGuess_settle. destruct fulfilled; reflexivity.
  - unfold handleSubmitGuess. destruct (calculateScore _ _ _ _ _); reflexivity.
Qed.

Lemma handle_ref e s :
  intervalRef (handle similarity e s) = intervalRef s.
Proof.
  destruct e; cbn; try reflexivity.
  - unfold handlePauseAndGuess_settle. destruct fulfilled; reflexivity.
  - unfold handleSubmitGuess. destruct (calculateScore _ _ _ _ _); reflexivity.
Qed.

Lemma step_invariant s e :
  timerInvariant s -> timerInvariant (step similarity s e).
Proof.
  intros Hinv. unfold step. destruct (enabled s e); [| exact Hinv].
  apply commit_invariant; [exact Hinv | apply handle_live | apply handle_ref].
Qed.

Lemma reachable_invariant s : reachable similarity s -> timerInvariant s.
Proof.
  induction 1 as [track isPlaying isInitialized | s e _ IH].
  - apply mount_invariant.
  - apply step_invariant, IH.
Qed.

Lemma reachable_run s es :
  reachable similarity s -> reachable similarity (run similarity s es).
Proof.
  revert s. induction es as [| e es IH]; intros s Hs; cbn; [exact Hs |].
  apply IH. constructor. exact Hs.
Qed.

(** The cells after an enabled event are those its handler wrote. *)
Lemma step_same s e :
  enabled s e = true ->
  sameRound (handle similarity e s) (step similarity s e).
Proof. intros He. unfold step. rewrite He. apply commit_same. Qed.

Lemma ticking_Playing s : ticking s = true <-> roundState s = Playing.
Proof.
  unfold ticking, roundState.
  destruct (isPlaying s), (isGuessing s), (noResult s), (isInitialized s);
    cbn; split; congruence.
Qed.

Lemma eqb_same (b : bool) : eqb b b = true.
Proof. destruct b; reflexivity. Qed.

(** *** A new track *)

(** C5 (as amended): supplying a new track, in any state of the round,
    leaves the timer value, the guessing flag, both guess fields and the
    result as they are; it cancels the interval held in [intervalRef] and,
    when the player is initialized, asks it to play the new track. *)
Theorem trackChanged_keeps_round (s : State) (t : SpotifyTrack) :
  let s' := step similarity s (TrackChanged t) in
  track s' = t /\ timer s' = timer s /\ isGuessing s' = isGuessing s
  /\ titleGuess s' = titleGuess s /\ artistGuess s' = artistGuess s
  /\ result s' = result s
  /\ (forall i, i ∈ liveIntervals s'
                <-> i ∈ liveIntervals s /\ intervalRef s ≠ Some i)
  /\ calls s' = calls s ++ (if isInitialized s then [PlayTrack t] else []).
Proof.
  cbn zeta.
  pose proof (step_same s (TrackChanged t) eq_refl) as Hsame.
  destruct Hsame as (Ht & _ & _ & Htimer & Hg & Htitle & Hartist & Hres & _).
  cbn in Ht, Htimer, Hg, Htitle, Hartist, Hres.
  repeat (split; [assumption |]).
  unfold step, commit, trackEffect_cleanup, timerEffect_cleanup.
  cbn [enabled isTrackChanged handle orb].
  assert (Hdeps :
    negb (eqb (isPlaying s) (isPlaying (setTrack t s)))
    || negb (eqb (isGuessing s) (isGuessing (setTrack t s)))
    || negb (sameResult (result s) (result (setTrack t s))) = false).
  { cbn. rewrite !eqb_same. cbn. destruct (result s) as [r |]; cbn;
      [rewrite Z.eqb_refl, eqb_same |]; reflexivity. }
  rewrite Hdeps. split.
  - intros i. rewrite trackEffect_live, clearInterval_live. reflexivity.
  - rewrite trackEffect_calls, clearInterval_calls.
    destruct (clearInterval_same (setTrack t s)) as (-> & _ & -> & _).
    reflexivity.
Qed.

(** *** Pause and guess *)

(** C6 (as amended): the pause-and-guess handler calls [togglePlayback] and
    waits for it; the guessing flag is still unset while the request is
    pending, is set once the request is fulfilled, and stays unset when the
    request fails. *)
Theorem guessing_after_toggle_settles (s : State) :
  enabled s ClickPauseAndGuess = true ->
  let s1 := step similarity s ClickPauseAndGuess in
  isGuessing s1 = false
  /\ pendingToggles s1 = S (pendingToggles s)
  /\ calls s1 = calls s ++ [TogglePlayback]
  /\ isGuessing (step similarity s1 (ToggleSettled true)) = true
  /\ isGuessing (step similarity s1 (ToggleSettled false)) = false.
Proof.
  intros Henabled. cbn zeta.
  pose proof (step_same s ClickPauseAndGuess Henabled) as Hsame.
  destruct Hsame as (_ & _ & Hinit & _ & Hg & _ & _ & _ & Hpending).
  cbn in Hinit, Hg, Hpending.
  assert (Hcalls : calls (step similarity s ClickPauseAndGuess)
                   = calls s ++ [TogglePlayback]).
  { unfold step. rewrite Henabled, commit_calls.
    cbn. rewrite eqb_same. cbn. apply app_nil_r. }
  cbn in Henabled. apply andb_prop in Henabled.
  destruct Henabled as [_ Hnot]. apply negb_true_iff in Hnot.
  split; [congruence |]. split; [exact Hpending |]. split; [exact Hcalls |].
  set (s1 := step similarity s ClickPauseAndGuess) in *.
  assert (Hen : forall b, enabled s1 (ToggleSettled b) = true).
  { intros b. cbn. rewrite Hpending. reflexivity. }
  split.
  - destruct (step_same s1 (ToggleSettled true) (Hen true))
      as (_ & _ & _ & _ & -> & _). reflexivity.
  - destruct (step_same s1 (ToggleSettled false) (Hen false))
      as (_ & _ & _ & _ & -> & _). cbn. congruence.
Qed.

(** *** The timer *)

Lemma step_timer s e :
  timerInvariant s -> e ≠ ClickPlayAgain ->
  timer s <= timer (step similarity s e)
  /\ (roundState s ≠ Playing -> timer (step similarity s e) = timer s).
Proof.
  intros Hinv Hne. unfold step. destruct (enabled s e) eqn:He;
    [| split; [apply Qle_refl | reflexivity]].
  destruct (commit_same (isTrackChanged e) s (handle similarity e s))
    as (_ & _ & _ & -> & _).
  destruct e; try (cbn; split; [apply Qle_refl | reflexivity]).
  - cbn in He. apply bool_decide_eq_true in He.
    destruct (Hinv _ He) as [_ Hticking].
    apply ticking_Playing in Hticking. cbn. split; [lra | congruence].
  - unfold handle, handlePauseAndGuess_settle.
    destruct fulfilled; cbn; (split; [apply Qle_refl | reflexivity]).
  - unfold handle, handleSubmitGuess.
    destruct (calculateScore _ _ _ _ _); cbn;
      (split; [apply Qle_refl | reflexivity]).
  - congruence.
Qed.

Lemma step_guessing s e :
  e ≠ ClickPlayAgain -> isGuessing s = true ->
  isGuessing (step similarity s e) = true.
Proof.
  intros Hne Hg. unfold step. destruct (enabled s e) eqn:He; [| exact Hg].
  destruct (commit_same (isTrackChanged e) s (handle similarity e s))
    as (_ & _ & _ & _ & -> & _).
  destruct e; try exact Hg.
  - unfold handle, handlePauseAndGuess_settle.
    destruct fulfilled; [reflexivity | exact Hg].
  - unfold handle, handleSubmitGuess.
    destruct (calculateScore _ _ _ _ _); exact Hg.
  - congruence.
Qed.

Lemma guessing_not_Playing s : isGuessing s = true -> roundState s ≠ Playing.
Proof.
  unfold roundState. intros ->. destruct (negb (noResult s)); discriminate.
Qed.

Lemma run_guessing s es :
  timerInvariant s -> isGuessing s = true -> ClickPlayAgain ∉ es ->
  isGuessing (run similarity s es) = true
  /\ timer (run similarity s es) = timer s.
Proof.
  revert s. induction es as [| e es IH]; intros s Hinv Hg Hnot;
    [split; [exact Hg | reflexivity] |].
  change (run similarity s (e :: es))
    with (run similarity (step similarity s e) es).
  apply not_elem_of_cons in Hnot. destruct Hnot as [Hne Hnot].
  assert (Hne' : e ≠ ClickPlayAgain) by congruence.
  destruct (step_timer s e Hinv Hne') as [_ Hfrozen].
  destruct (IH (step similarity s e)) as [Hg' Ht'];
    [apply step_invariant, Hinv | apply step_guessing; assumption
    | exact Hnot |].
  split; [exact Hg' |].
  rewrite Ht'. apply Hfrozen, guessing_not_Playing, Hg.
Qed.

(** C8: in every state the component can reach, an interval is live only
    while playback is on and the round is neither guessing nor scored;
    hence, the reset of play again apart, no event makes the elapsed time
    smaller, only an event in [Playing] changes it, and once guessing has
    begun the elapsed time stays as it is and guessing stays on for the rest
    of the round. *)
Theorem timer_runs_only_while_playing (s : State) :
  reachable similarity s ->
  (forall i, i ∈ liveIntervals s ->
     isPlaying s = true /\ isGuessing s = false /\ result s = None)
  /\ (forall e, e ≠ ClickPlayAgain ->
        timer s <= timer (step similarity s e)
        /\ (roundState s ≠ Playing -> timer (step similarity s e) = timer s))
  /\ (isGuessing s = true -> forall es, ClickPlayAgain ∉ es ->
        isGuessing (run similarity s es) = true
        /\ timer (run similarity s es) = timer s).
Proof.
  intros Hreach. apply reachable_invariant in Hreach.
  split; [| split].
  - intros i Hi. destruct (Hreach i Hi) as [_ Hticking].
    unfold ticking, noResult in Hticking.
    destruct (isPlaying s), (isGuessing s), (result s); try discriminate.
    repeat split.
  - intros e. apply step_timer, Hreach.
  - intros Hg es. apply run_guessing; assumption.
Qed.

(** *** Play again *)

(** C7: play again, invoked from the scored round, sets both guesses to the
    empty string, the elapsed time to exactly 0 and the result to absent,
    and calls the parent's play-again handler; that handler leaves the
    played set as it was up to its fetch, and every identifier that was in
    the played set is still in it when the handler has completed. *)
Theorem playAgain_resets (s : State) (validateTrack : SpotifyTrack -> bool)
    (random : Q) (outcome : App.FetchOutcome) (app : App.State) :
  roundState s = Scored -> isInitialized s = true ->
  let s' := step similarity s ClickPlayAgain in
  titleGuess s' = "" /\ artistGuess s' = "" /\ timer s' = 0
  /\ result s' = None /\ isGuessing s' = false
  /\ calls s' = calls s ++ [OnPlayAgain]
  /\ App.playedTracks (App.handlePlayAgain_call app) = App.playedTracks app
  /\ App.playedTracks app
     ⊆ App.playedTracks (App.handlePlayAgain validateTrack random outcome app).
Proof.
  intros Hscored Hinit. cbn zeta.
  assert (Henabled : enabled s ClickPlayAgain = true).
  { cbn. rewrite Hinit. unfold roundState in Hscored.
    destruct (negb (noResult s)); [reflexivity |].
    destruct (isGuessing s), (isPlaying s), (isInitialized s); discriminate. }
  destruct (step_same s ClickPlayAgain Henabled)
    as (_ & _ & _ & Htimer & Hg & Htitle & Hartist & Hres & _).
  repeat (split; [assumption |]).
  split; [| split].
  - unfold step. rewrite Henabled, commit_calls.
    cbn. rewrite eqb_same. cbn. apply app_nil_r.
  - unfold App.handlePlayAgain_call.
    destruct (App.currentPlaylist app);
      [apply handlePlaylistSelect_call_played | reflexivity].
  - unfold App.handlePlayAgain.
    destruct (App.currentPlaylist app);
      [apply handlePlaylistSelect_played | reflexivity].
Qed.

End Steps.

(** Against C5 as stated (a new track resets the round first): a track
    change in the middle of guessing leaves the elapsed time, the typed
    title and the guessing flag of the round it interrupts. *)
Lemma trackChanged_mid_round_no_reset :
  reachable Similarity.calculateSimilarity midGuessing
  /\ roundState midGuessing = Guessing
  /\ let s' := step Similarity.calculateSimilarity midGuessing
                 (TrackChanged underPressure) in
     ~ timer s' == 0 /\ titleGuess s' ≠ "" /\ isGuessing s' ≠ false.
Proof.
  split.
  - unfold midGuessing, midPlaying.
    do 2 apply reachable_run. apply reachable_mount.
  - split; [vm_compute; reflexivity |].
    cbn zeta. split; [| split]; vm_compute; discriminate.
Qed.

Lemma guessing_after_toggle_settles_witness :
  let s1 := step Similarity.calculateSimilarity midPlaying ClickPauseAndGuess in
  isGuessing s1 = false
  /\ pendingToggles s1 = S (pendingToggles midPlaying)
  /\ calls s1 = calls midPlaying ++ [TogglePlayback]
  /\ isGuessing (step Similarity.calculateSimilarity s1 (ToggleSettled true))
     = true
  /\ isGuessing (step Similarity.calculateSimilarity s1 (ToggleSettled false))
     = false.
Proof.
  apply (guessing_after_toggle_settles Similarity.calculateSimilarity midPlaying).
  vm_compute. reflexivity.
Defined.

(** Against C6 as stated (guessing is entered at the click): while the track
    plays, the click on the pause button leaves the round in [Playing]; the
    guessing flag waits for [togglePlayback]. *)
Lemma click_does_not_enter_guessing :
  reachable Similarity.calculateSimilarity midPlaying
  /\ roundState midPlaying = Playing
  /\ enabled midPlaying ClickPauseAndGuess = true
  /\ let s' := step Similarity.calculateSimilarity midPlaying
                 ClickPauseAndGuess in
     isGuessing s' = false /\ roundState s' ≠ Guessing
     /\ pendingToggles s' = 1%nat.
Proof.
  split.
  - unfold midPlaying. apply reachable_run, reachable_mount.
  - split; [vm_compute; reflexivity |].
    split; [vm_compute; reflexivity |].
    cbn zeta. split; [vm_compute; reflexivity |].
    split; [vm_compute; discriminate | vm_compute; reflexivity].
Qed.

Lemma timer_runs_only_while_playing_witness :
  let es := [ TypeArtist "queen"; PlayerIsPlaying true; IntervalFired 1;
              TrackChanged underPressure; ClickSubmitGuess ] in
  isGuessing (run Similarity.calculateSimilarity midGuessing es) = true
  /\ timer (run Similarity.calculateSimilarity midGuessing es)
     = timer midGuessing.
Proof.
  assert (Hreach : reachable Similarity.calculateSimilarity midGuessing).
  { unfold midGuessing, midPlaying.
    do 2 apply reachable_run. apply reachable_mount. }
  apply (timer_runs_only_while_playing Similarity.calculateSimilarity
           midGuessing Hreach).
  - reflexivity.
  - intros Hin. repeat (apply elem_of_cons in Hin as [Hin | Hin];
                        [discriminate Hin |]).
    eapply not_elem_of_nil, Hin.
Defined.

Lemma playAgain_resets_witness :
  let s' := step Similarity.calculateSimilarity scored ClickPlayAgain in
  let app := {| App.currentTrack := Some bohemianRhapsody; App.error := None;
                App.currentPlaylist :=
                  Some {| Spotify.playlist_id := "p1";
                          Spotify.tracks_total := 2 |};
                App.playedTracks := {[ "t1" ]} |} in
  let fetched := App.Resolved [ {| Spotify.track := bohemianRhapsody |};
                                {| Spotify.track := underPressure |} ] in
  titleGuess s' = "" /\ artistGuess s' = "" /\ timer s' = 0
  /\ result s' = None /\ isGuessing s' = false
  /\ calls s' = calls scored ++ [OnPlayAgain]
  /\ App.playedTracks (App.handlePlayAgain_call app) = App.playedTracks app
  /\ App.playedTracks app
     ⊆ App.playedTracks (App.handlePlayAgain (λ _, true) (1 # 3) fetched app).
Proof.
  cbn zeta.
  apply (playAgain_resets Similarity.calculateSimilarity scored).
  - vm_compute. reflexivity.
  - vm_compute. reflexivity.
Defined.

End GamePlayerFacts.

(** ** Text similarity *)

Module SimilarityFacts.

Import Similarity.

Section Normalization.

Variable fold : ascii -> ascii.
Variable blank : ascii -> bool.

(** Folding leaves whitespace whitespace. *)
Hypothesis fold_blank : forall c, blank c = true -> blank (fold c) = true.

Abbreviation spaces := (Forall (λ c : ascii, blank c = true)).











End Normalization.




End SimilarityFacts.

(** * Further properties of the code *)

(** ** Scoring: how the score moves with time and similarity *)

Module ScoreFacts.

Lemma timeBonus_monotone t1 t2 : t1 <= t2 -> timeBonus t2 <= timeBonus t1.
Proof.
  intros Hle.
  destruct (timeBonus_cases t1) as [[H1 E1] | [H1 E1]],
           (timeBonus_cases t2) as [[H2 E2] | [H2 E2]];
    rewrite E1, E2; qlra.
Qed.

Lemma timeBonus_nonneg t : 0 <= timeBonus t.
Proof. unfold timeBonus, JsMath.max. apply Q.le_max_l. Qed.

Lemma timeBonus_late t : 30 <= t -> timeBonus t == 0.
Proof.
  intros Ht. destruct (timeBonus_cases t) as [[H1 E1] | [H1 E1]];
    rewrite E1; [qlra | reflexivity].
Qed.

(** The score as a function of the two similarities and the bonus. *)
Lemma calculateScore_Some similarity titleGuess artistGuess track t res :
  calculateScore similarity titleGuess artistGuess track t = Some res ->
  exists artistName,
    primaryArtistName track = Some artistName
    /\ score res
       = JsMath.round
           (((similarity titleGuess (Spotify.name track)
              + similarity artistGuess artistName) / 2 * 80
             + timeBonus t * 20) * 100)
    /\ isCorrect res
       = JsMath.gt (similarity titleGuess (Spotify.name track)) (8 # 10)
         && JsMath.gt (similarity artistGuess artistName) (8 # 10).
Proof.
  unfold calculateScore. destruct (primaryArtistName track) as [a |];
    [| discriminate].
  intros [= <-]. exists a. repeat split.
Qed.

Section Scores.

Variable similarity : string -> string -> Q.

(** X1: with the same guesses on the same track, a later submission never
    scores more than an earlier one, and is judged correct exactly when the
    earlier one is. *)
Theorem later_guess_never_scores_more (titleGuess artistGuess : string)
    (track : SpotifyTrack) (t1 t2 : Q) (r1 r2 : Result) :
  t1 <= t2 ->
  calculateScore similarity titleGuess artistGuess track t1 = Some r1 ->
  calculateScore similarity titleGuess artistGuess track t2 = Some r2 ->
  (score r2 <= score r1)%Z /\ isCorrect r2 = isCorrect r1.
Proof.
  intros Hle H1 H2.
  apply calculateScore_Some in H1, H2.
  destruct H1 as (a1 & Ha1 & Hs1 & Hc1), H2 as (a2 & Ha2 & Hs2 & Hc2).
  rewrite Ha1 in Ha2. injection Ha2 as <-.
  split; [| congruence].
  rewrite Hs1, Hs2. unfold JsMath.round. apply Qfloor_resp_le.
  pose proof (timeBonus_monotone t1 t2 Hle) as Hbonus.
  generalize dependent (timeBonus t1). generalize dependent (timeBonus t2).
  generalize (similarity titleGuess (Spotify.name track)).
  generalize (similarity artistGuess a1).
  intros x y b2 _ b1 _ Hb. qlra.
Qed.

(** X2: from 30 seconds on the elapsed time no longer matters: the same
    guesses on the same track give the same result at any two such times. *)
Theorem late_guesses_score_alike (titleGuess artistGuess : string)
    (track : SpotifyTrack) (t1 t2 : Q) :
  30 <= t1 -> 30 <= t2 ->
  calculateScore similarity titleGuess artistGuess track t1
  = calculateScore similarity titleGuess artistGuess track t2.
Proof.
  intros H1 H2. unfold calculateScore.
  destruct (primaryArtistName track) as [a |]; [| reflexivity].
  cbn zeta. f_equal. f_equal. unfold JsMath.round. apply Qfloor_comp.
  rewrite (timeBonus_late t1 H1), (timeBonus_late t2 H2). reflexivity.
Qed.

(** X3: at the same elapsed time, guesses that are at least as similar to
    the title and to the first artist's name never score less. *)
Theorem closer_guess_never_scores_less (titleGuess artistGuess : string)
    (titleGuess' artistGuess' : string) (track : SpotifyTrack) (t : Q)
    (artist : Spotify.Artist) (others : list Spotify.Artist)
    (r r' : Result) :
  Spotify.artists track = artist :: others ->
  similarity titleGuess (Spotify.name track)
    <= similarity titleGuess' (Spotify.name track) ->
  similarity artistGuess (Spotify.artist_name artist)
    <= similarity artistGuess' (Spotify.artist_name artist) ->
  calculateScore similarity titleGuess artistGuess track t = Some r ->
  calculateScore similarity titleGuess' artistGuess' track t = Some r' ->
  (score r <= score r')%Z.
Proof.
  intros Hartists Htitle Hartist H H'.
  apply calculateScore_Some in H, H'.
  destruct H as (a & Ha & Hs & _), H' as (a' & Ha' & Hs' & _).
  unfold primaryArtistName in Ha, Ha'. rewrite Hartists in Ha, Ha'.
  injection Ha as <-. injection Ha' as <-.
  rewrite Hs, Hs'. unfold JsMath.round. apply Qfloor_resp_le.
  generalize (timeBonus t). intros b.
  generalize dependent (similarity titleGuess (Spotify.name track)).
  generalize dependent (similarity titleGuess' (Spotify.name track)).
  generalize dependent (similarity artistGuess (Spotify.artist_name artist)).
  generalize dependent (similarity artistGuess' (Spotify.artist_name artist)).
  intros y' y Hy x' x Hx. qlra.
Qed.

(** X4: an answer judged correct scores at least 6400, whatever the elapsed
    time. *)
Theorem correct_scores_at_least_6400 (titleGuess artistGuess : string)
    (track : SpotifyTrack) (t : Q) (r : Result) :
  calculateScore similarity titleGuess artistGuess track t = Some r ->
  isCorrect r = true ->
  (6400 <= score r)%Z.
Proof.
  intros H Hcorrect. apply calculateScore_Some in H.
  destruct H as (a & _ & Hs & Hc).
  rewrite Hc in Hcorrect. apply andb_prop in Hcorrect.
  destruct Hcorrect as [Htitle Hartist].
  apply gt_true_iff in Htitle, Hartist.
  rewrite Hs. unfold JsMath.round.
  change 6400%Z with (Qfloor (inject_Z 6400)). apply Qfloor_resp_le.
  change (inject_Z 6400) with 6400.
  pose proof (timeBonus_nonneg t) as Hb.
  generalize dependent (timeBonus t). intros b Hb.
  generalize dependent (similarity titleGuess (Spotify.name track)).
  generalize dependent (similarity artistGuess a).
  intros y Hy x Hx. qlra.
Qed.

End Scores.

Lemma later_guess_never_scores_more_witness :
  exists r1 r2,
    calculateScore Similarity.calculateSimilarity
      "bohemian rhapsody" "Queen " bohemianRhapsody 2 = Some r1
    /\ calculateScore Similarity.calculateSimilarity
         "bohemian rhapsody" "Queen " bohemianRhapsody 12 = Some r2
    /\ (score r2 <= score r1)%Z /\ isCorrect r2 = isCorrect r1.
Proof.
  eexists. eexists. split; [reflexivity |]. split; [reflexivity |].
  apply (later_guess_never_scores_more Similarity.calculateSimilarity
           "bohemian rhapsody" "Queen " bohemianRhapsody 2 12).
  - vm_compute. discriminate.
  - reflexivity.
  - reflexivity.
Defined.

Lemma late_guesses_score_alike_witness :
  calculateScore Similarity.calculateSimilarity
    "bohemian" "Queen" bohemianRhapsody 30
  = calculateScore Similarity.calculateSimilarity
      "bohemian" "Queen" bohemianRhapsody 45.
Proof.
  apply (late_guesses_score_alike Similarity.calculateSimilarity
           "bohemian" "Queen" bohemianRhapsody 30 45).
  - vm_compute. discriminate.
  - vm_compute. discriminate.
Defined.

Lemma closer_guess_never_scores_less_witness :
  exists r r',
    calculateScore Similarity.calculateSimilarity
      "bohemian" "Quen" bohemianRhapsody 5 = Some r
    /\ calculateScore Similarity.calculateSimilarity
         "bohemian rhapsody" "Queen" bohemianRhapsody 5 = Some r'
    /\ (score r <= score r')%Z.
Proof.
  eexists. eexists. split; [reflexivity |]. split; [reflexivity |].
  apply (closer_guess_never_scores_less Similarity.calculateSimilarity
           "bohemian" "Quen" "bohemian rhapsody" "Queen" bohemianRhapsody 5
           {| Spotify.artist_name := "Queen" |} []).
  - reflexivity.
  - vm_compute. discriminate.
  - vm_compute. discriminate.
  - reflexivity.
  - reflexivity.
Defined.

Lemma correct_scores_at_least_6400_witness :
  exists r,
    calculateScore Similarity.calculateSimilarity
      "bohemian rhapsody" "Queen " bohemianRhapsody 40 = Some r
    /\ (6400 <= score r)%Z.
Proof.
  eexists. split; [reflexivity |].
  apply (correct_scores_at_least_6400 Similarity.calculateSimilarity
           "bohemian rhapsody" "Queen " bohemianRhapsody 40).
  - reflexivity.
  - vm_compute. reflexivity.
Defined.

End ScoreFacts.

(** ** Playlist selection: what a completed invocation wrote *)

Module SelectionFacts.

Import App AppShell.

Section Selection.

Variable validateTrack : SpotifyTrack -> bool.

(** The five ways through [handlePlaylistSelect]. *)
Lemma handlePlaylistSelect_paths playlist random outcome s :
  let s' := handlePlaylistSelect validateTrack playlist random outcome s in
  let failed message :=
    setCurrentTrack None (setError (Some message) (entered playlist s)) in
  (Spotify.tracks_total playlist = 0%Z
   /\ s' = failed "This playlist is empty")
  \/ (Spotify.tracks_total playlist ≠ 0%Z /\ outcome = Rejected
      /\ s' = failed "Failed to load tracks from this playlist")
  \/ (Spotify.tracks_total playlist ≠ 0%Z
      /\ exists items, outcome = Resolved items
         /\ ((validTracksOf validateTrack items = []
              /\ s' = failed "No playable tracks found in this playlist")
             \/ (validTracksOf validateTrack items ≠ []
                 /\ selectRandomTrack (playedTracks s) random
                      (validTracksOf validateTrack items) = None
                 /\ s' = failed "You have played all tracks in this playlist!")
             \/ (exists t,
                   selectRandomTrack (playedTracks s) random
                     (validTracksOf validateTrack items) = Some t
                   /\ s' = setCurrentTrack (Some t)
                             (setPlayedTracks (λ prev, prev ∪ {[ Spotify.id t ]})
                                (entered playlist s))))).
Proof.
  cbn zeta. unfold handlePlaylistSelect, handlePlaylistSelect_call.
  destruct (Z.eqb_spec (Spotify.tracks_total playlist) 0) as [Hzero | Hnz].
  - left. split; [exact Hzero | reflexivity].
  - right. unfold handlePlaylistSelect_settle.
    destruct outcome as [| items].
    + left. repeat split; assumption.
    + right. split; [exact Hnz |]. exists items. split; [reflexivity |].
      fold (validTracksOf validateTrack items).
      case_decide as Hlen.
      * left. split; [apply nil_length_inv, Hlen | reflexivity].
      * right.
        destruct (selectRandomTrack _ _ _) as [t |] eqn:Hsel.
        -- right. exists t. split; reflexivity.
        -- left. split; [| split; reflexivity].
           intros Hnil. rewrite Hnil in Hlen. apply Hlen. reflexivity.
Qed.

(** Closes the directions of the taxonomy that hold by comparing two
    messages, two outcomes or the count with zero. *)
Ltac taxonomy :=
  try solve
    [ intros; discriminate
    | intros; tauto
    | intros; contradiction
    | intros [? ?]; first [contradiction | discriminate | congruence]
    | intros (? & ? & [= <-] & ?); first [contradiction | congruence]
    | intros (? & ? & [= <-] & ? & ?); first [contradiction | congruence]
    | intros (? & ? & ? & ?); first [discriminate | congruence] ].

Lemma validTracksOf_elem items t :
  t ∈ validTracksOf validateTrack items
  <-> t ∈ map Spotify.track items /\ validateTrack t = true.
Proof.
  unfold validTracksOf. rewrite !list_elem_of_In, filter_In. reflexivity.
Qed.

(** X5: for an invocation that no other handler disturbs while it waits for
    its fetch: when it leaves a current track, the fetch had resolved, the
    track is a validated item of the response whose identifier was not in
    the played set, the played set has grown by exactly that identifier, the
    error is cleared and the playlist is the current one. *)
Theorem selection_draws_fresh_track (playlist : SpotifyPlaylist) (random : Q)
    (outcome : FetchOutcome) (s : State) (t : SpotifyTrack) :
  let s' := handlePlaylistSelect validateTrack playlist random outcome s in
  currentTrack s' = Some t ->
  (exists items, outcome = Resolved items
                 /\ t ∈ map Spotify.track items /\ validateTrack t = true)
  /\ (Spotify.id t ∉ playedTracks s)
  /\ playedTracks s' = playedTracks s ∪ {[ Spotify.id t ]}
  /\ size (playedTracks s') = S (size (playedTracks s))
  /\ error s' = None
  /\ currentPlaylist s' = Some playlist.
Proof.
  cbn zeta. intros Hcurrent.
  destruct (handlePlaylistSelect_paths playlist random outcome s)
    as [[_ Hs'] | [(_ & _ & Hs') | (_ & items & Hout & Hcases)]];
    try (rewrite Hs' in Hcurrent; discriminate Hcurrent).
  destruct Hcases as [[_ Hs'] | [(_ & _ & Hs') | (t' & Hsel & Hs')]];
    try (rewrite Hs' in Hcurrent; discriminate Hcurrent).
  rewrite Hs' in Hcurrent |- *. cbn in Hcurrent. injection Hcurrent as ->.
  apply selectRandomTrack_Some in Hsel. destruct Hsel as [Hin Hfresh].
  apply validTracksOf_elem in Hin.
  split; [exists items; split; [exact Hout | exact Hin] |].
  split; [exact Hfresh |]. cbn. split; [reflexivity |].
  split; [| split; reflexivity].
  rewrite size_union by (apply disjoint_singleton_r; exact Hfresh).
  rewrite size_singleton. lia.
Qed.

(** X6: an invocation that no other handler disturbs while it waits for its
    fetch and that leaves no current track leaves the played set exactly as
    it was, and the selected playlist as the current one. *)
Theorem failed_selection_keeps_played_set (playlist : SpotifyPlaylist)
    (random : Q) (outcome : FetchOutcome) (s : State) :
  let s' := handlePlaylistSelect validateTrack playlist random outcome s in
  currentTrack s' = None ->
  playedTracks s' = playedTracks s /\ currentPlaylist s' = Some playlist.
Proof.
  cbn zeta. intros Hcurrent.
  destruct (handlePlaylistSelect_paths playlist random outcome s)
    as [[_ Hs'] | [(_ & _ & Hs') | (_ & items & Hout & Hcases)]];
    try (rewrite Hs'; split; reflexivity).
  destruct Hcases as [[_ Hs'] | [(_ & _ & Hs') | (t' & Hsel & Hs')]];
    try (rewrite Hs'; split; reflexivity).
  rewrite Hs' in Hcurrent. discriminate Hcurrent.
Qed.

(** X7: which message is reported when, by an invocation that no other
    handler disturbs while it waits for its fetch.  The playlist's own count decides
    "empty" before any fetch; a rejected fetch is a load failure; a response
    without a valid track is "no playable tracks"; and "all played" is
    reported exactly when the response has valid tracks and the identifier
    of every one of them is in the played set. *)
Theorem selection_error_taxonomy (playlist : SpotifyPlaylist) (random : Q)
    (outcome : FetchOutcome) (s : State) :
  0 <= random < 1 ->
  let s' := handlePlaylistSelect validateTrack playlist random outcome s in
  (error s' = Some "This playlist is empty"
     <-> Spotify.tracks_total playlist = 0%Z)
  /\ (error s' = Some "Failed to load tracks from this playlist"
        <-> Spotify.tracks_total playlist ≠ 0%Z /\ outcome = Rejected)
  /\ (error s' = Some "No playable tracks found in this playlist"
        <-> Spotify.tracks_total playlist ≠ 0%Z
            /\ exists items, outcome = Resolved items
                             /\ validTracksOf validateTrack items = [])
  /\ (error s' = Some "You have played all tracks in this playlist!"
        <-> Spotify.tracks_total playlist ≠ 0%Z
            /\ exists items, outcome = Resolved items
                 /\ validTracksOf validateTrack items ≠ []
                 /\ forall t, t ∈ validTracksOf validateTrack items ->
                              Spotify.id t ∈ playedTracks s).
Proof.
  intros Hrandom. cbn zeta.
  destruct (handlePlaylistSelect_paths playlist random outcome s)
    as [[Hz Hs'] | [(Hnz & Hout & Hs') | (Hnz & items & Hout & Hcases)]].
  - rewrite Hs'. cbn. split; [| split; [| split]]; split; taxonomy.
  - rewrite Hs'. cbn. subst outcome.
    split; [| split; [| split]]; split; taxonomy.
  - subst outcome.
    destruct Hcases as [[Hnil Hs'] | [(Hne & Hsel & Hs') | (t & Hsel & Hs')]].
    + rewrite Hs'. cbn. split; [| split; [| split]]; split; taxonomy.
      intros _. split; [exact Hnz |]. exists items.
      split; [reflexivity | exact Hnil].
    + rewrite Hs'. cbn. split; [| split; [| split]]; split; taxonomy.
      intros _. split; [exact Hnz |]. exists items. split; [reflexivity |].
      split; [exact Hne |]. intros t Hin.
      destruct (decide (Spotify.id t ∈ playedTracks s)) as [Hp | Hfresh];
        [exact Hp |].
      destruct (selectRandomTrack_available (playedTracks s) random _ t
                  Hrandom Hin Hfresh) as [t' Ht'].
      congruence.
    + rewrite Hs'. cbn. apply selectRandomTrack_Some in Hsel.
      destruct Hsel as [Hin Hfresh].
      split; [| split; [| split]]; split; taxonomy.
      * intros (_ & items' & [= <-] & Hnil).
        rewrite Hnil in Hin. exfalso. eapply not_elem_of_nil, Hin.
      * intros (_ & items' & [= <-] & _ & Hall).
        exfalso. apply Hfresh, Hall, Hin.
Qed.

(** X8: every way through an invocation that no other handler disturbs
    leaves the selected playlist as the current one, so play again after
    such a selection, whatever its outcome, is a selection of that playlist
    again. *)
Theorem play_again_reselects (playlist : SpotifyPlaylist)
    (random random' : Q) (outcome outcome' : FetchOutcome) (s : State) :
  let s1 := handlePlaylistSelect validateTrack playlist random outcome s in
  currentPlaylist s1 = Some playlist
  /\ handlePlayAgain validateTrack random' outcome' s1
     = handlePlaylistSelect validateTrack playlist random' outcome' s1.
Proof.
  cbn zeta.
  assert (Hcurrent :
    currentPlaylist (handlePlaylistSelect validateTrack playlist random outcome s)
    = Some playlist).
  { destruct (handlePlaylistSelect_paths playlist random outcome s)
      as [[_ Hs'] | [(_ & _ & Hs') | (_ & items & Hout & Hcases)]];
      try (rewrite Hs'; reflexivity).
    destruct Hcases as [[_ Hs'] | [(_ & _ & Hs') | (t' & Hsel & Hs')]];
      rewrite Hs'; reflexivity. }
  split; [exact Hcurrent |].
  unfold handlePlayAgain. rewrite Hcurrent. reflexivity.
Qed.

(** X9: the part of an invocation after the fetch, run on whatever state
    it finds: when it sets a track it writes the track and the played set
    only, so an error message or a playlist written by another handler
    while the fetch was pending is still there beside the new track. *)
Theorem settle_keeps_pending_writes (closure : gset string) (random : Q)
    (outcome : FetchOutcome) (s : State) (t : SpotifyTrack) :
  let s' := handlePlaylistSelect_settle validateTrack closure random outcome s in
  currentTrack s' = Some t ->
  error s' = error s /\ currentPlaylist s' = currentPlaylist s
  /\ (Spotify.id t ∉ closure)
  /\ playedTracks s' = playedTracks s ∪ {[ Spotify.id t ]}.
Proof.
  cbn zeta. unfold handlePlaylistSelect_settle.
  destruct outcome as [| items]; [discriminate |].
  case_decide; [discriminate |].
  destruct (selectRandomTrack _ _ _) as [t' |] eqn:Hsel; [| discriminate].
  cbn. intros [= ->]. apply selectRandomTrack_Some in Hsel.
  destruct Hsel as [_ Hfresh]. repeat split. exact Hfresh.
Qed.

(** *** Drawing until the playlist is exhausted *)

Lemma unplayed_elem items s t :
  t ∈ unplayed validateTrack items s
  <-> t ∈ validTracksOf validateTrack items /\ Spotify.id t ∉ playedTracks s.
Proof. unfold unplayed. rewrite list_elem_of_filter. tauto. Qed.

Lemma unplayed_same_played items s s' :
  playedTracks s' = playedTracks s ->
  unplayed validateTrack items s' = unplayed validateTrack items s.
Proof. unfold unplayed. intros ->. reflexivity. Qed.

(** Marking an unplayed valid track as played leaves fewer unplayed ones. *)
Lemma unplayed_shrinks items s s' t :
  t ∈ unplayed validateTrack items s ->
  playedTracks s' = playedTracks s ∪ {[ Spotify.id t ]} ->
  (length (unplayed validateTrack items s')
   < length (unplayed validateTrack items s))%nat.
Proof.
  intros Hin Hplayed.
  assert (Hsplit :
    unplayed validateTrack items s'
    = filter (λ t', Spotify.id t' ∉ playedTracks s')
             (unplayed validateTrack items s)).
  { unfold unplayed. rewrite list_filter_filter. apply list_filter_iff.
    intros t'. rewrite Hplayed, not_elem_of_union. tauto. }
  rewrite Hsplit. apply length_filter_lt with t; [exact Hin |].
  rewrite Hplayed, not_elem_of_union, not_elem_of_singleton. tauto.
Qed.

Lemma selectRandomTrack_unplayed items random s t :
  selectRandomTrack (playedTracks s) random (validTracksOf validateTrack items)
  = Some t ->
  t ∈ unplayed validateTrack items s.
Proof.
  intros Hsel. apply selectRandomTrack_Some in Hsel.
  apply unplayed_elem. exact Hsel.
Qed.

(** One more completed selection leaves one unplayed track fewer, if there
    was one. *)
Lemma unplayed_after_selection playlist items random s :
  Spotify.tracks_total playlist ≠ 0%Z -> 0 <= random < 1 ->
  (length (unplayed validateTrack items
             (handlePlaylistSelect validateTrack playlist random
                (Resolved items) s))
   <= pred (length (unplayed validateTrack items s)))%nat.
Proof.
  intros Hnz Hrandom.
  destruct (handlePlaylistSelect_paths playlist random (Resolved items) s)
    as [[Hz _] | [(_ & Hout & _) | (_ & items' & Hout & Hcases)]];
    [contradiction | discriminate Hout |].
  injection Hout as <-.
  destruct Hcases as [[Hnil Hs'] | [(Hne & Hsel & Hs') | (t & Hsel & Hs')]].
  - rewrite Hs'. rewrite (unplayed_same_played items s) by reflexivity.
    unfold unplayed. rewrite Hnil. cbn. lia.
  - rewrite Hs'. rewrite (unplayed_same_played items s) by reflexivity.
    destruct (unplayed validateTrack items s) as [| t rest] eqn:Hun;
      [cbn; lia |].
    assert (Hin : t ∈ unplayed validateTrack items s)
      by (rewrite Hun; left).
    apply unplayed_elem in Hin. destruct Hin as [Hin Hfresh].
    destruct (selectRandomTrack_available (playedTracks s) random _ t
                Hrandom Hin Hfresh) as [t' Ht'].
    congruence.
  - rewrite Hs'.
    pose proof (unplayed_shrinks items s
                  (setCurrentTrack (Some t)
                     (setPlayedTracks (λ prev, prev ∪ {[ Spotify.id t ]})
                        (entered playlist s))) t
                  (selectRandomTrack_unplayed items random s t Hsel)
                  eq_refl) as Hlt.
    apply Nat.lt_le_pred, Hlt.
Qed.

Lemma unplayed_after_selections playlist items randoms s :
  Spotify.tracks_total playlist ≠ 0%Z ->
  Forall (λ random, 0 <= random < 1) randoms ->
  (length (unplayed validateTrack items
             (selectRepeatedly validateTrack playlist items randoms s))
   <= length (unplayed validateTrack items s) - length randoms)%nat.
Proof.
  intros Hnz Hrandoms. revert s.
  induction Hrandoms as [| random randoms Hrandom _ IH]; intros s;
    [cbn; lia |].
  change (selectRepeatedly validateTrack playlist items (random :: randoms) s)
    with (selectRepeatedly validateTrack playlist items randoms
            (handlePlaylistSelect validateTrack playlist random
               (Resolved items) s)).
  pose proof (unplayed_after_selection playlist items random s Hnz Hrandom).
  specialize (IH (handlePlaylistSelect validateTrack playlist random
                    (Resolved items) s)).
  cbn [length]. lia.
Qed.

(** X10: selecting a playlist again and again, each selection completed
    before the next is made and nothing else written in between, as many
    times as its response has valid tracks, leaves the identifier of every
    valid track in the played set; the selection after that sets no track,
    reports that all tracks were played and leaves the played set as it
    is. *)
Theorem repeated_selection_exhausts (playlist : SpotifyPlaylist)
    (items : list Spotify.PlaylistItem) (randoms : list Q) (random : Q)
    (s : State) :
  Spotify.tracks_total playlist ≠ 0%Z ->
  validTracksOf validateTrack items ≠ [] ->
  Forall (λ random, 0 <= random < 1) randoms ->
  (length (validTracksOf validateTrack items) <= length randoms)%nat ->
  let s1 := selectRepeatedly validateTrack playlist items randoms s in
  let s2 := handlePlaylistSelect validateTrack playlist random
              (Resolved items) s1 in
  (forall t, t ∈ validTracksOf validateTrack items ->
             Spotify.id t ∈ playedTracks s1)
  /\ currentTrack s2 = None
  /\ error s2 = Some "You have played all tracks in this playlist!"
  /\ playedTracks s2 = playedTracks s1.
Proof.
  intros Hnz Hne Hrandoms Hlen. cbn zeta.
  set (s1 := selectRepeatedly validateTrack playlist items randoms s).
  assert (Hall : forall t, t ∈ validTracksOf validateTrack items ->
                           Spotify.id t ∈ playedTracks s1).
  { intros t Hin.
    destruct (decide (Spotify.id t ∈ playedTracks s1)) as [Hp | Hfresh];
      [exact Hp |].
    pose proof (unplayed_after_selections playlist items randoms s
                  Hnz Hrandoms) as Hbound.
    fold s1 in Hbound.
    assert (Hun : t ∈ unplayed validateTrack items s1)
      by (apply unplayed_elem; split; assumption).
    assert (Hle : (length (unplayed validateTrack items s)
                   <= length (validTracksOf validateTrack items))%nat)
      by apply length_filter.
    destruct (unplayed validateTrack items s1); [| cbn in Hbound; lia].
    exfalso. eapply not_elem_of_nil, Hun. }
  split; [exact Hall |].
  destruct (handlePlaylistSelect_paths playlist random (Resolved items) s1)
    as [[Hz _] | [(_ & Hout & _) | (_ & items' & Hout & Hcases)]];
    [contradiction | discriminate Hout |].
  injection Hout as <-.
  destruct Hcases as [[Hnil _] | [(_ & _ & Hs') | (t & Hsel & _)]].
  - contradiction.
  - rewrite Hs'. repeat split.
  - apply selectRandomTrack_Some in Hsel. destruct Hsel as [Hin Hfresh].
    exfalso. apply Hfresh, Hall, Hin.
Qed.

End Selection.

Lemma selection_draws_fresh_track_witness :
  let s' := handlePlaylistSelect (λ _, true) queenPlaylist (1 # 3)
              (Resolved queenItems) afterFirstRound in
  (exists items, Resolved queenItems = Resolved items
                 /\ underPressure ∈ map Spotify.track items
                 /\ true = true)
  /\ (Spotify.id underPressure ∉ playedTracks afterFirstRound)
  /\ playedTracks s'
     = playedTracks afterFirstRound ∪ {[ Spotify.id underPressure ]}
  /\ size (playedTracks s') = S (size (playedTracks afterFirstRound))
  /\ error s' = None
  /\ currentPlaylist s' = Some queenPlaylist.
Proof.
  apply (selection_draws_fresh_track (λ _, true) queenPlaylist (1 # 3)
           (Resolved queenItems) afterFirstRound underPressure).
  vm_compute. reflexivity.
Defined.

Lemma failed_selection_keeps_played_set_witness :
  let s' := handlePlaylistSelect (λ _, true) queenPlaylist (1 # 3)
              Rejected afterFirstRound in
  playedTracks s' = playedTracks afterFirstRound
  /\ currentPlaylist s' = Some queenPlaylist.
Proof.
  apply (failed_selection_keeps_played_set (λ _, true) queenPlaylist (1 # 3)
           Rejected afterFirstRound).
  reflexivity.
Defined.

Lemma selection_error_taxonomy_witness :
  error (handlePlaylistSelect (λ _, false) queenPlaylist (1 # 3)
           (Resolved queenItems) afterFirstRound)
  = Some "No playable tracks found in this playlist".
Proof.
  assert (Hrandom : 0 <= 1 # 3 < 1) by (split; [discriminate | reflexivity]).
  apply (selection_error_taxonomy (λ _, false) queenPlaylist (1 # 3)
           (Resolved queenItems) afterFirstRound Hrandom).
  split; [discriminate |]. exists queenItems. split; reflexivity.
Defined.

Lemma settle_keeps_pending_writes_witness :
  let pending := setError (Some "Failed to load user profile")
                   (entered queenPlaylist afterFirstRound) in
  let s' := handlePlaylistSelect_settle (λ _, true)
              (playedTracks afterFirstRound) (1 # 3) (Resolved queenItems)
              pending in
  error s' = Some "Failed to load user profile"
  /\ currentPlaylist s' = Some queenPlaylist
  /\ (Spotify.id underPressure ∉ playedTracks afterFirstRound)
  /\ playedTracks s' = playedTracks pending ∪ {[ Spotify.id underPressure ]}.
Proof.
  cbn zeta.
  apply (settle_keeps_pending_writes (λ _, true)
           (playedTracks afterFirstRound) (1 # 3) (Resolved queenItems)
           (setError (Some "Failed to load user profile")
              (entered queenPlaylist afterFirstRound)) underPressure).
  vm_compute. reflexivity.
Defined.

Lemma repeated_selection_exhausts_witness :
  let s1 := selectRepeatedly (λ _, true) queenPlaylist queenItems
              [1 # 3; 2 # 3] initial in
  let s2 := handlePlaylistSelect (λ _, true) queenPlaylist (1 # 2)
              (Resolved queenItems) s1 in
  (forall t, t ∈ validTracksOf (λ _, true) queenItems ->
             Spotify.id t ∈ playedTracks s1)
  /\ currentTrack s2 = None
  /\ error s2 = Some "You have played all tracks in this playlist!"
  /\ playedTracks s2 = playedTracks s1.
Proof.
  apply (repeated_selection_exhausts (λ _, true) queenPlaylist queenItems
           [1 # 3; 2 # 3] (1 # 2) initial).
  - discriminate.
  - discriminate.
  - repeat constructor; discriminate.
  - cbn. lia.
Defined.

End SelectionFacts.

(** ** Loading the playlists and the routes *)

Module ShellFacts.

Import App AppShell.

Lemma nameOrUntitled_nonempty name : nameOrUntitled name ≠ "".
Proof.
  unfold nameOrUntitled. destruct name as [n |]; [| discriminate].
  destruct (String.eqb_spec n ""); [discriminate | assumption].
Qed.

(** X11: every playlist the mount effect stores comes from an item of the
    response that passed validation, keeps its identifier and has a name
    that is not empty; the stored playlists are the validated items in the
    order of the response. *)
Theorem loaded_playlists_wellformed (validatePlaylist : RawPlaylist -> bool)
    (items : list RawPlaylist) (playlist : LoadedPlaylist) :
  playlist ∈ loadPlaylists validatePlaylist items ->
  loaded_name playlist ≠ ""
  /\ (exists raw, raw ∈ items /\ validatePlaylist raw = true
                  /\ playlist = normalizePlaylist raw
                  /\ loaded_id playlist = raw_id raw)
  /\ map loaded_id (loadPlaylists validatePlaylist items)
     = map raw_id (List.filter validatePlaylist items).
Proof.
  intros Hin. unfold loadPlaylists in *.
  apply list_elem_of_fmap in Hin. destruct Hin as (raw & -> & Hraw).
  apply list_elem_of_In, filter_In in Hraw. destruct Hraw as [Hraw Hvalid].
  split; [apply nameOrUntitled_nonempty |]. split.
  - exists raw. rewrite list_elem_of_In. repeat split; assumption.
  - rewrite map_map. reflexivity.
Qed.

Lemma loaded_playlists_wellformed_witness :
  let raw := {| raw_id := "p9"; raw_name := Some ""; raw_images := None;
                raw_tracks := Some None |} in
  let playlist := {| loaded_id := "p9"; loaded_name := "Untitled Playlist";
                     loaded_images := []; loaded_total := 0 |} in
  loaded_name playlist ≠ ""
  /\ (exists raw', raw' ∈ [raw] /\ true = true
                   /\ playlist = normalizePlaylist raw'
                   /\ loaded_id playlist = raw_id raw')
  /\ map loaded_id (loadPlaylists (λ _, true) [raw])
     = map raw_id (List.filter (λ _, true) [raw]).
Proof.
  cbn zeta.
  apply (loaded_playlists_wellformed (λ _, true)
           [ {| raw_id := "p9"; raw_name := Some ""; raw_images := None;
                raw_tracks := Some None |} ]).
  apply list_elem_of_In. left. reflexivity.
Defined.

(** X12: a playlist delivered without a track count is stored with count 0,
    and selecting it reports an empty playlist without waiting for a fetch:
    whatever the fetch would deliver, no track is set and the played set is
    as it was. *)
Theorem missing_count_selects_as_empty (validateTrack : SpotifyTrack -> bool)
    (raw : RawPlaylist) (random : Q) (outcome : FetchOutcome) (s : State) :
  raw_tracks raw = None \/ raw_tracks raw = Some None ->
  let playlist := selectable (normalizePlaylist raw) in
  let s' := handlePlaylistSelect validateTrack playlist random outcome s in
  snd (handlePlaylistSelect_call playlist s) = false
  /\ error s' = Some "This playlist is empty"
  /\ currentTrack s' = None
  /\ playedTracks s' = playedTracks s.
Proof.
  intros Hmissing. cbn zeta.
  assert (Htotal :
    Spotify.tracks_total (selectable (normalizePlaylist raw)) = 0%Z).
  { cbn. unfold totalOrZero. destruct Hmissing as [-> | ->]; reflexivity. }
  unfold handlePlaylistSelect, handlePlaylistSelect_call.
  rewrite Htotal. cbn. repeat split.
Qed.

Lemma missing_count_selects_as_empty_witness :
  let raw := {| raw_id := "p9"; raw_name := Some "Mix"; raw_images := None;
                raw_tracks := Some None |} in
  let playlist := selectable (normalizePlaylist raw) in
  let s' := handlePlaylistSelect (λ _, true) playlist (1 # 3)
              (Resolved queenItems) afterFirstRound in
  snd (handlePlaylistSelect_call playlist afterFirstRound) = false
  /\ error s' = Some "This playlist is empty"
  /\ currentTrack s' = None
  /\ playedTracks s' = playedTracks afterFirstRound.
Proof.
  cbn zeta.
  apply (missing_count_selects_as_empty (λ _, true)
           {| raw_id := "p9"; raw_name := Some "Mix"; raw_images := None;
              raw_tracks := Some None |}).
  right. reflexivity.
Defined.

(** X13: following the routes ends after at most one redirect; it never
    ends on the home page without authentication nor on the login page with
    it, and from the root or the login path it ends on the home page when
    authenticated and on the login page when not. *)
Theorem routes_settle (isAuthenticated : bool) (path : Path) :
  exists view,
    settleRoute 1 isAuthenticated path = Some view
    /\ (forall to, view ≠ Navigate to)
    /\ (view = HomePage -> isAuthenticated = true)
    /\ (view = LoginPage -> isAuthenticated = false)
    /\ (path ≠ CallbackPath ->
        view = if isAuthenticated then HomePage else LoginPage).
Proof.
  destruct isAuthenticated, path; cbn; eexists;
    (split; [reflexivity |]); repeat split;
    first [discriminate | congruence | reflexivity].
Qed.

End ShellFacts.

(** ** The round component: intervals, emissions, the scored round *)

Module RoundFacts.

Import GamePlayer RoundLog GamePlayerFacts.

Lemma sameResult_refl r : sameResult r r = true.
Proof.
  destruct r as [r |]; cbn; [| reflexivity].
  rewrite Z.eqb_refl, eqb_same. reflexivity.
Qed.

(** A commit after an update that changed no dependency runs no effect. *)
Lemma commit_unchanged s new :
  isInitialized new = isInitialized s -> isPlaying new = isPlaying s ->
  isGuessing new = isGuessing s -> result new = result s ->
  commit false s new = new.
Proof.
  intros Hinit Hplaying Hguessing Hresult. unfold commit.
  rewrite Hinit, Hplaying, Hguessing, Hresult, !eqb_same, sameResult_refl.
  reflexivity.
Qed.

Lemma completions_app l1 l2 :
  completions (l1 ++ l2) = (completions l1 + completions l2)%nat.
Proof.
  induction l1 as [| c l1 IH]; cbn; [reflexivity |].
  destruct c; cbn; rewrite IH; reflexivity.
Qed.

Lemma playAgains_app l1 l2 :
  playAgains (l1 ++ l2) = (playAgains l1 + playAgains l2)%nat.
Proof.
  induction l1 as [| c l1 IH]; cbn; [reflexivity |].
  destruct c; cbn; rewrite IH; reflexivity.
Qed.

Lemma playRequests_app l1 l2 :
  playRequests (l1 ++ l2) = (playRequests l1 + playRequests l2)%nat.
Proof.
  induction l1 as [| c l1 IH]; cbn; [reflexivity |].
  destruct c; cbn; rewrite IH; reflexivity.
Qed.

Section Rounds.

Variable similarity : string -> string -> Q.

Abbreviation step := (GamePlayer.step similarity).
Abbreviation run := (GamePlayer.run similarity).
Abbreviation reachable := (GamePlayer.reachable similarity).
Abbreviation handle := (GamePlayer.handle similarity).

(** Calls and result after an enabled event. *)
Lemma step_calls s e :
  enabled s e = true ->
  exists plays,
    calls (step s e) = calls (handle e s) ++ plays
    /\ completions plays = 0%nat /\ playAgains plays = 0%nat.
Proof.
  intros He. unfold GamePlayer.step. rewrite He, commit_calls.
  eexists. split; [reflexivity |].
  destruct (_ && _); split; reflexivity.
Qed.

Lemma step_result s e :
  enabled s e = true -> result (step s e) = result (handle e s).
Proof.
  intros He. destruct (step_same similarity s e He)
    as (_ & _ & _ & _ & _ & _ & _ & Hres & _). exact Hres.
Qed.

(** *** One interval at most *)

(** X14: in every state the component can reach at most one interval is
    live, and it is the one whose handle [intervalRef] holds: the elapsed
    time is never advanced by two intervals at once. *)
Theorem at_most_one_interval (s : State) (i j : positive) :
  reachable s -> i ∈ liveIntervals s -> j ∈ liveIntervals s ->
  i = j /\ intervalRef s = Some i /\ liveIntervals s = {[ i ]}.
Proof.
  intros Hreach Hi Hj. apply reachable_invariant in Hreach.
  destruct (Hreach i Hi) as [Hrefi _], (Hreach j Hj) as [Hrefj _].
  assert (Heq : i = j) by congruence.
  split; [exact Heq |]. split; [exact Hrefi |].
  apply set_eq. intros k. rewrite elem_of_singleton. split.
  - intros Hk. destruct (Hreach k Hk) as [Hrefk _]. congruence.
  - intros ->. exact Hi.
Qed.

(** *** Ticks *)

Lemma step_tick s i :
  i ∈ liveIntervals s -> step s (IntervalFired i) = tick s.
Proof.
  intros Hi. unfold GamePlayer.step. cbn [enabled].
  rewrite bool_decide_eq_true_2 by exact Hi.
  apply commit_unchanged; reflexivity.
Qed.

(** X15: while an interval is live, its callbacks change the elapsed time
    only, and never make it smaller: after [n] of them the interval is still
    live, the other cells are as they were and nothing has been called. *)
Theorem ticks_change_only_timer (s : State) (i : positive) (n : nat) :
  i ∈ liveIntervals s ->
  let s' := run s (replicate n (IntervalFired i)) in
  timer s <= timer s'
  /\ liveIntervals s' = liveIntervals s
  /\ sameRound (setTimer (λ _, timer s') s) s'
  /\ calls s' = calls s.
Proof.
  intros Hi. cbn zeta. revert s Hi.
  induction n as [| n IH]; intros s Hi.
  - cbn. split; [apply Qle_refl |]. split; [reflexivity |].
    split; [unfold sameRound; cbn; tauto | reflexivity].
  - change (run s (replicate (S n) (IntervalFired i)))
      with (run (step s (IntervalFired i)) (replicate n (IntervalFired i))).
    rewrite (step_tick s i Hi).
    destruct (IH (tick s) Hi) as (Ht & Hlive & Hsame & Hcalls).
    split; [| split; [exact Hlive | split; [exact Hsame | exact Hcalls]]].
    eapply Qle_trans; [| exact Ht]. cbn [timer tick setTimer]. lra.
Qed.

Lemma step_wholeTicks s e : wholeTicks s -> wholeTicks (step s e).
Proof.
  intros [n Hn]. unfold GamePlayer.step.
  destruct (enabled s e) eqn:He; [| exists n; exact Hn].
  unfold wholeTicks.
  destruct (commit_same (isTrackChanged e) s (handle e s))
    as (_ & _ & _ & -> & _).
  destruct e; try (exists n; exact Hn).
  - exists (S n). cbn. rewrite Hn.
    rewrite Nat2Z.inj_succ, <- Z.add_1_r, inject_Z_plus.
    change (inject_Z 1) with 1. ring.
  - unfold GamePlayer.handle, handlePauseAndGuess_settle.
    destruct fulfilled; exists n; exact Hn.
  - unfold GamePlayer.handle, handleSubmitGuess.
    destruct (calculateScore _ _ _ _ _); exists n; exact Hn.
  - exists 0%nat. cbn. ring.
Qed.

Lemma mount_wholeTicks track isPlaying isInitialized :
  wholeTicks (mount track isPlaying isInitialized).
Proof.
  exists 0%nat. unfold mount.
  match goal with
  | |- context [timerEffect (trackEffect ?s0)] =>
      destruct (timerEffect_same (trackEffect s0)) as (_ & _ & _ & -> & _);
      destruct (trackEffect_same s0) as (_ & _ & _ & -> & _)
  end.
  cbn. ring.
Qed.

Lemma reachable_wholeTicks s : reachable s -> wholeTicks s.
Proof.
  induction 1 as [track isPlaying isInitialized | s e _ IH];
    [apply mount_wholeTicks | apply step_wholeTicks, IH].
Qed.

Lemma wholeTicks_nonneg s : wholeTicks s -> 0 <= timer s.
Proof.
  intros [n ->]. apply Qmult_le_0_compat; [| discriminate].
  change 0 with (inject_Z 0). rewrite <- Zle_Qle. lia.
Qed.

(** X16: in every state the component can reach the elapsed time is not
    negative. *)
Theorem elapsed_time_never_negative (s : State) :
  reachable s -> 0 <= timer s.
Proof.
  intros Hreach. apply wholeTicks_nonneg, reachable_wholeTicks, Hreach.
Qed.

(** *** Emissions *)

Lemma enabled_submit_noResult s :
  enabled s ClickSubmitGuess = true -> result s = None.
Proof.
  cbn. unfold noResult. destruct (result s); [| reflexivity].
  rewrite andb_false_r. discriminate.
Qed.

Lemma enabled_playAgain_result s :
  enabled s ClickPlayAgain = true -> exists r, result s = Some r.
Proof.
  cbn. unfold noResult. destruct (result s) as [r |]; [eauto |].
  rewrite andb_false_r. discriminate.
Qed.

Lemma step_emissions s e :
  completions (calls s) = (playAgains (calls s) + hasResult s)%nat ->
  completions (calls (step s e))
  = (playAgains (calls (step s e)) + hasResult (step s e))%nat.
Proof.
  intros Hinv. destruct (enabled s e) eqn:He;
    [| unfold GamePlayer.step; rewrite He; exact Hinv].
  destruct (step_calls s e He) as (plays & Hcalls & Hc & Hp).
  unfold hasResult in *. rewrite (step_result s e He), Hcalls.
  rewrite completions_app, playAgains_app, Hc, Hp, !Nat.add_0_r.
  destruct e; try exact Hinv.
  - cbn. rewrite completions_app, playAgains_app. cbn. lia.
  - unfold GamePlayer.handle, handlePauseAndGuess_settle.
    destruct fulfilled; exact Hinv.
  - apply enabled_submit_noResult in He. rewrite He in Hinv.
    unfold GamePlayer.handle, handleSubmitGuess.
    destruct (calculateScore _ _ _ _ _) as [r |]; [| rewrite He; exact Hinv].
    cbn. rewrite completions_app, playAgains_app. cbn. lia.
  - apply enabled_playAgain_result in He. destruct He as [r Hr].
    rewrite Hr in Hinv. cbn.
    rewrite completions_app, playAgains_app. cbn. lia.
Qed.

(** X17: in every state the component can reach, [onGameComplete] has been
    called once for every round that was played again and once more when
    the current round is scored: a round reports its score exactly once. *)
Theorem score_reported_once_per_round (s : State) :
  reachable s ->
  completions (calls s) = (playAgains (calls s) + hasResult s)%nat.
Proof.
  induction 1 as [track isPlaying isInitialized | s e _ IH].
  - unfold mount, hasResult.
    match goal with
    | |- context [timerEffect (trackEffect ?s0)] =>
        rewrite timerEffect_calls, trackEffect_calls;
        destruct (timerEffect_same (trackEffect s0))
          as (_ & _ & _ & _ & _ & _ & _ & -> & _);
        destruct (trackEffect_same s0)
          as (_ & _ & _ & _ & _ & _ & _ & -> & _)
    end.
    cbn. destruct isInitialized; reflexivity.
  - apply step_emissions, IH.
Qed.

(** *** The scored round *)

Lemma step_scored s e r :
  timerInvariant s -> result s = Some r -> e ≠ ClickPlayAgain ->
  result (step s e) = Some r /\ timer (step s e) = timer s
  /\ titleGuess (step s e) = titleGuess s
  /\ artistGuess (step s e) = artistGuess s
  /\ completions (calls (step s e)) = completions (calls s).
Proof.
  intros Hinv Hr Hne.
  destruct (enabled s e) eqn:He;
    [| unfold GamePlayer.step; rewrite He; repeat split; exact Hr].
  destruct (step_calls s e He) as (plays & Hcalls & Hc & _).
  rewrite Hcalls, completions_app, Hc, Nat.add_0_r.
  destruct (step_same similarity s e He)
    as (_ & _ & _ & -> & _ & -> & -> & -> & _).
  assert (Hno : noResult s = false) by (unfold noResult; rewrite Hr; reflexivity).
  destruct e; cbn in He; rewrite ?Hno, ?andb_false_r in He;
    try discriminate He; try (repeat split; exact Hr).
  - apply bool_decide_eq_true in He. destruct (Hinv _ He) as [_ Hticking].
    unfold ticking in Hticking. rewrite Hno, andb_false_r in Hticking.
    discriminate Hticking.
  - unfold GamePlayer.handle, handlePauseAndGuess_settle.
    destruct fulfilled; repeat split; exact Hr.
  - congruence.
Qed.

(** X18: a scored round stays as scored until play again: whatever else
    happens, the result, the elapsed time and both guesses stay as they are
    and no further score is reported. *)
Theorem scored_round_is_final (s : State) (r : Result) (es : list Event) :
  reachable s -> result s = Some r -> ClickPlayAgain ∉ es ->
  let s' := run s es in
  result s' = Some r /\ timer s' = timer s
  /\ titleGuess s' = titleGuess s /\ artistGuess s' = artistGuess s
  /\ completions (calls s') = completions (calls s).
Proof.
  intros Hreach Hr Hnot. cbn zeta. apply reachable_invariant in Hreach.
  revert s Hreach Hr. induction es as [| e es IH]; intros s Hinv Hr;
    [repeat split; exact Hr |].
  change (run s (e :: es)) with (run (step s e) es).
  apply not_elem_of_cons in Hnot. destruct Hnot as [Hne Hnot].
  assert (Hne' : e ≠ ClickPlayAgain) by congruence.
  destruct (step_scored s e r Hinv Hr Hne') as (Hr1 & Ht1 & Hg1 & Ha1 & Hc1).
  destruct (IH Hnot (step s e) (step_invariant similarity s e Hinv) Hr1)
    as (Hr2 & Ht2 & Hg2 & Ha2 & Hc2).
  repeat split; congruence.
Qed.

(** X19: submitting the guess scores the guesses and the elapsed time as
    they are at that moment, stores the result, reports its score once and
    changes no other cell; for a track without artists, where the score
    computation throws, nothing is stored or reported and the round stays in
    guessing. *)
Theorem submit_scores_current_guess (s : State) :
  enabled s ClickSubmitGuess = true ->
  let s' := step s ClickSubmitGuess in
  match calculateScore similarity (titleGuess s) (artistGuess s)
          (track s) (timer s) with
  | Some r =>
      result s' = Some r /\ calls s' = calls s ++ [OnGameComplete (score r)]
      /\ sameRound (setResult (Some r) s) s'
      /\ roundState s' = Scored
  | None => s' = s /\ Spotify.artists (track s) = []
  end.
Proof.
  intros He. cbn zeta.
  pose proof (enabled_submit_noResult s He) as Hnone.
  destruct (calculateScore _ _ _ _ _) as [r |] eqn:Hscore.
  - pose proof (step_same similarity s ClickSubmitGuess He) as Hsame.
    unfold GamePlayer.handle, handleSubmitGuess in Hsame.
    rewrite Hscore in Hsame.
    assert (Hres : result (step s ClickSubmitGuess) = Some r).
    { destruct Hsame as (_ & _ & _ & _ & _ & _ & _ & -> & _). reflexivity. }
    split; [exact Hres |]. split; [| split].
    + unfold GamePlayer.step. rewrite He, commit_calls.
      unfold GamePlayer.handle, handleSubmitGuess. rewrite Hscore.
      cbn. rewrite eqb_same. cbn. apply app_nil_r.
    + unfold sameRound in *. cbn in *. exact Hsame.
    + unfold roundState, noResult. rewrite Hres. reflexivity.
  - split.
    + unfold GamePlayer.step. rewrite He.
      unfold GamePlayer.handle, handleSubmitGuess. rewrite Hscore.
      apply commit_unchanged; reflexivity.
    + unfold calculateScore, primaryArtistName in Hscore.
      destruct (Spotify.artists (track s)); [reflexivity | discriminate].
Qed.

(** *** Starting and stopping the interval *)

Lemma none_live (i : positive) : i ∈ (∅ : gset positive) -> False.
Proof. apply not_elem_of_empty. Qed.

Lemma clearInterval_next s : nextInterval (clearInterval s) = nextInterval s.
Proof. unfold clearInterval. destruct (intervalRef s); reflexivity. Qed.

(** Under the invariant, clearing the interval of the ref leaves none. *)
Lemma cleared_none s new :
  timerInvariant s ->
  liveIntervals new = liveIntervals s -> intervalRef new = intervalRef s ->
  liveIntervals (clearInterval new) = ∅.
Proof.
  intros Hinv Hlive Href. apply set_eq. intros i.
  rewrite clearInterval_live, Hlive, Href.
  split; [| intros Hi; exfalso; exact (none_live i Hi)].
  intros [Hi Hne]. exfalso. apply Hne, Hinv, Hi.
Qed.

(** X20: when playback starts in a round that is neither guessing nor
    scored, exactly one interval is started, with a fresh handle that is
    stored in [intervalRef]; when playback stops, no interval is left; in
    both cases the elapsed time is kept. *)
Theorem playback_starts_and_stops_interval (s : State) :
  reachable s -> isGuessing s = false -> result s = None ->
  let started := step s (PlayerIsPlaying true) in
  let stopped := step s (PlayerIsPlaying false) in
  (isPlaying s = false ->
     liveIntervals started = {[ nextInterval s ]}
     /\ intervalRef started = Some (nextInterval s)
     /\ timer started = timer s)
  /\ (isPlaying s = true ->
        liveIntervals stopped = ∅ /\ timer stopped = timer s).
Proof.
  intros Hreach Hg Hr. apply reachable_invariant in Hreach. cbn zeta.
  assert (Hcleared : forall b,
            liveIntervals (clearInterval (setIsPlaying b s)) = ∅)
    by (intros b; apply (cleared_none s); [exact Hreach | reflexivity..]).
  unfold GamePlayer.step, commit, timerEffect_cleanup, timerEffect.
  cbn [enabled isTrackChanged GamePlayer.handle orb].
  cbn [isInitialized isPlaying isGuessing result setIsPlaying].
  rewrite !eqb_same. cbn [negb orb].
  split; intros Hp; rewrite Hp; cbn [eqb negb orb].
  - rewrite (sameRound_ticking (setIsPlaying true s))
      by apply clearInterval_same.
    unfold ticking, noResult. cbn [isPlaying isGuessing result setIsPlaying].
    rewrite Hg, Hr. cbn [negb andb].
    cbn [liveIntervals intervalRef timer setInterval].
    rewrite Hcleared, clearInterval_next.
    split; [apply (left_id_L ∅ (∪)) |]. split; [reflexivity |].
    destruct (clearInterval_same (setIsPlaying true s))
      as (_ & _ & _ & -> & _). reflexivity.
  - rewrite (sameRound_ticking (setIsPlaying false s))
      by apply clearInterval_same.
    unfold ticking. cbn [isPlaying setIsPlaying andb].
    split.
    + apply set_eq. intros i. rewrite clearInterval_live, Hcleared.
      split; [tauto | intros Hi; exfalso; exact (none_live i Hi)].
    + destruct (clearInterval_same (clearInterval (setIsPlaying false s)))
        as (_ & _ & _ & -> & _).
      destruct (clearInterval_same (setIsPlaying false s))
        as (_ & _ & _ & -> & _). reflexivity.
Qed.

(** X21: a new track, or a change of the player's readiness, cancels the
    live interval and starts none, although the condition of the timer
    effect is as before: in a round that is playing, the elapsed time then
    stands still until the playing state, the guessing flag or the result
    changes. *)
Theorem track_or_readiness_change_cancels_interval (s : State)
    (t : SpotifyTrack) (b : bool) :
  reachable s -> b ≠ isInitialized s ->
  let s1 := step s (TrackChanged t) in
  let s2 := step s (PlayerIsInitialized b) in
  liveIntervals s1 = ∅ /\ ticking s1 = ticking s
  /\ liveIntervals s2 = ∅ /\ ticking s2 = ticking s
  /\ (forall i, step s1 (IntervalFired i) = s1).
Proof.
  intros Hreach Hb. apply reachable_invariant in Hreach. cbn zeta.
  assert (Hflip : negb (eqb (isInitialized s) b) = true)
    by (destruct (isInitialized s), b; try reflexivity; congruence).
  assert (Hlive1 : liveIntervals (step s (TrackChanged t)) = ∅).
  { unfold GamePlayer.step, commit, trackEffect_cleanup.
    cbn [enabled isTrackChanged GamePlayer.handle orb].
    cbn [isInitialized isPlaying isGuessing result setTrack].
    rewrite !eqb_same, sameResult_refl. cbn [negb orb].
    rewrite trackEffect_live.
    apply (cleared_none s); [exact Hreach | reflexivity..]. }
  split; [exact Hlive1 |]. split; [| split; [| split]].
  - apply (sameRound_ticking (setTrack t s)).
    apply (step_same similarity s (TrackChanged t) eq_refl).
  - unfold GamePlayer.step, commit, trackEffect_cleanup.
    cbn [enabled isTrackChanged GamePlayer.handle orb].
    cbn [isInitialized isPlaying isGuessing result setIsInitialized].
    rewrite Hflip, !eqb_same, sameResult_refl. cbn [negb orb].
    rewrite trackEffect_live.
    apply (cleared_none s); [exact Hreach | reflexivity..].
  - apply (sameRound_ticking (setIsInitialized b s)).
    apply (step_same similarity s (PlayerIsInitialized b) eq_refl).
  - intros i. unfold GamePlayer.step at 1. cbn [enabled].
    rewrite Hlive1. rewrite bool_decide_eq_false_2; [reflexivity |].
    apply not_elem_of_empty.
Qed.

(** X22: the player is asked to play exactly when a new track arrives while
    it is ready, or when it becomes ready, and then it is asked for the
    current track; no other event asks it to play. *)
Theorem playback_requested_when_ready (s : State) (e : Event) :
  calls (step s e)
  = (if enabled s e then calls (handle e s) else calls s)
    ++ match e with
       | TrackChanged t => if isInitialized s then [PlayTrack t] else []
       | PlayerIsInitialized b =>
           if b && negb (isInitialized s) then [PlayTrack (track s)] else []
       | _ => []
       end.
Proof.
  unfold GamePlayer.step. destruct (enabled s e) eqn:He.
  - rewrite commit_calls. f_equal.
    destruct e; cbn; rewrite ?eqb_same; try reflexivity.
    + destruct (isInitialized s), isInitialized0; reflexivity.
    + unfold handlePauseAndGuess_settle.
      destruct fulfilled; cbn; rewrite eqb_same; reflexivity.
    + unfold handleSubmitGuess.
      destruct (calculateScore _ _ _ _ _); cbn; rewrite eqb_same;
        reflexivity.
  - destruct e; try discriminate He; symmetry; apply app_nil_r.
Qed.

(** *** Scores in the log *)

Lemma score_bounds titleGuess artistGuess track t r :
  (forall a b, 0 <= similarity a b <= 1) -> 0 <= t ->
  calculateScore similarity titleGuess artistGuess track t = Some r ->
  (0 <= score r <= 10000)%Z.
Proof.
  intros Hsim Ht Hscore. apply ScoreFacts.calculateScore_Some in Hscore.
  destruct Hscore as (a & _ & -> & _).
  pose proof (timeBonus_range t Ht) as Hbonus.
  pose proof (Hsim titleGuess (Spotify.name track)) as Htitle.
  pose proof (Hsim artistGuess a) as Hartist.
  generalize dependent (timeBonus t). intros bonus Hbonus.
  generalize dependent (similarity titleGuess (Spotify.name track)).
  intros x Hx.
  generalize dependent (similarity artistGuess a). intros y Hy.
  split.
  - apply round_nonneg. qlra.
  - apply round_le. change (inject_Z 10000) with 10000. qlra.
Qed.

Lemma handle_scoresBounded s e :
  (forall a b, 0 <= similarity a b <= 1) -> 0 <= timer s ->
  scoresBounded s -> scoresBounded (handle e s).
Proof.
  intros Hsim Ht [Hres Hlog].
  destruct e; try (split; [exact Hres | exact Hlog]).
  - split; [exact Hres |]. intros z. cbn. rewrite elem_of_app.
    intros [Hz | Hz]; [apply Hlog, Hz |].
    apply list_elem_of_singleton in Hz. discriminate Hz.
  - unfold GamePlayer.handle, handlePauseAndGuess_settle.
    destruct fulfilled; (split; [exact Hres | exact Hlog]).
  - unfold GamePlayer.handle, handleSubmitGuess.
    destruct (calculateScore _ _ _ _ _) as [r |] eqn:Hscore;
      [| split; [exact Hres | exact Hlog]].
    pose proof (score_bounds _ _ _ _ r Hsim Ht Hscore) as Hbound.
    split.
    + cbn. intros r' [= <-]. exact Hbound.
    + intros z. cbn. rewrite elem_of_app.
      intros [Hz | Hz]; [apply Hlog, Hz |].
      apply list_elem_of_singleton in Hz. injection Hz as ->. exact Hbound.
  - split; [cbn; discriminate |]. intros z. cbn. rewrite elem_of_app.
    intros [Hz | Hz]; [apply Hlog, Hz |].
    apply list_elem_of_singleton in Hz. discriminate Hz.
Qed.

Lemma step_scoresBounded s e :
  (forall a b, 0 <= similarity a b <= 1) -> 0 <= timer s ->
  scoresBounded s -> scoresBounded (step s e).
Proof.
  intros Hsim Ht Hinv. destruct (enabled s e) eqn:He;
    [| unfold GamePlayer.step; rewrite He; exact Hinv].
  destruct (handle_scoresBounded s e Hsim Ht Hinv) as [Hres Hlog].
  split.
  - rewrite (step_result s e He). exact Hres.
  - intros z. unfold GamePlayer.step. rewrite He, commit_calls, elem_of_app.
    intros [Hz | Hz]; [apply Hlog, Hz |].
    destruct (_ && _); [| inversion Hz].
    apply list_elem_of_singleton in Hz. discriminate Hz.
Qed.

(** X23: with a similarity that stays within 0..1, every result the
    component holds and every score it has reported to [onGameComplete] is
    within 0..10000. *)
Theorem reported_scores_bounded (s : State) :
  (forall a b, 0 <= similarity a b <= 1) ->
  reachable s -> scoresBounded s.
Proof.
  intros Hsim Hreach.
  induction Hreach as [track isPlaying isInitialized | s e Hreach IH].
  - split.
    + unfold mount.
      match goal with
      | |- context [timerEffect (trackEffect ?s0)] =>
          destruct (timerEffect_same (trackEffect s0))
            as (_ & _ & _ & _ & _ & _ & _ & -> & _);
          destruct (trackEffect_same s0)
            as (_ & _ & _ & _ & _ & _ & _ & -> & _)
      end.
      cbn. discriminate.
    + intros z. unfold mount.
      rewrite timerEffect_calls, trackEffect_calls. cbn.
      destruct isInitialized; intros Hz; [| inversion Hz].
      apply list_elem_of_singleton in Hz. discriminate Hz.
  - apply step_scoresBounded; [exact Hsim | | exact IH].
    apply wholeTicks_nonneg, reachable_wholeTicks, Hreach.
Qed.

End Rounds.

Lemma midPlaying_reachable :
  GamePlayer.reachable Similarity.calculateSimilarity midPlaying.
Proof. unfold midPlaying. apply reachable_run, reachable_mount. Qed.

Lemma midGuessing_reachable :
  GamePlayer.reachable Similarity.calculateSimilarity midGuessing.
Proof. unfold midGuessing. apply reachable_run, midPlaying_reachable. Qed.

Lemma scored_reachable :
  GamePlayer.reachable Similarity.calculateSimilarity scored.
Proof. unfold scored. apply reachable_run, midGuessing_reachable. Qed.

Lemma one_live_in_midPlaying : (1%positive) ∈ liveIntervals midPlaying.
Proof. vm_compute. reflexivity. Qed.

Lemma at_most_one_interval_witness :
  (1 = 1)%positive /\ intervalRef midPlaying = Some 1%positive
  /\ liveIntervals midPlaying = {[ 1%positive ]}.
Proof.
  apply (at_most_one_interval Similarity.calculateSimilarity midPlaying 1 1).
  - apply midPlaying_reachable.
  - apply one_live_in_midPlaying.
  - apply one_live_in_midPlaying.
Defined.

Lemma ticks_change_only_timer_witness :
  let s' := GamePlayer.run Similarity.calculateSimilarity midPlaying
              (replicate 10 (IntervalFired 1)) in
  timer midPlaying <= timer s'
  /\ liveIntervals s' = liveIntervals midPlaying
  /\ sameRound (setTimer (λ _, timer s') midPlaying) s'
  /\ calls s' = calls midPlaying.
Proof.
  apply (ticks_change_only_timer Similarity.calculateSimilarity midPlaying 1 10).
  apply one_live_in_midPlaying.
Defined.

Lemma elapsed_time_never_negative_witness : 0 <= timer midGuessing.
Proof.
  apply (elapsed_time_never_negative Similarity.calculateSimilarity midGuessing).
  apply midGuessing_reachable.
Defined.

Lemma score_reported_once_per_round_witness :
  completions (calls scored) = (playAgains (calls scored) + hasResult scored)%nat.
Proof.
  apply (score_reported_once_per_round Similarity.calculateSimilarity scored).
  apply scored_reachable.
Defined.

Lemma scored_round_is_final_witness :
  let es := [ PlayerIsPlaying true; TrackChanged underPressure;
              IntervalFired 1; ClickSubmitGuess; TypeTitle "again";
              ToggleSettled true ] in
  let s' := GamePlayer.run Similarity.calculateSimilarity scored es in
  result s' = Some {| score := 9980; isCorrect := true |}
  /\ timer s' = timer scored
  /\ titleGuess s' = titleGuess scored /\ artistGuess s' = artistGuess scored
  /\ completions (calls s') = completions (calls scored).
Proof.
  cbn zeta.
  apply (scored_round_is_final Similarity.calculateSimilarity scored
           {| score := 9980; isCorrect := true |}).
  - apply scored_reachable.
  - vm_compute. reflexivity.
  - intros Hin. repeat (apply elem_of_cons in Hin as [Hin | Hin];
                        [discriminate Hin |]).
    eapply not_elem_of_nil, Hin.
Defined.

Lemma submit_scores_current_guess_witness :
  let s' := GamePlayer.step Similarity.calculateSimilarity readyToSubmit
              ClickSubmitGuess in
  match calculateScore Similarity.calculateSimilarity
          (titleGuess readyToSubmit) (artistGuess readyToSubmit)
          (track readyToSubmit) (timer readyToSubmit) with
  | Some r =>
      result s' = Some r /\ calls s' = calls readyToSubmit ++ [OnGameComplete (score r)]
      /\ sameRound (setResult (Some r) readyToSubmit) s'
      /\ roundState s' = Scored
  | None => s' = readyToSubmit /\ Spotify.artists (track readyToSubmit) = []
  end.
Proof.
  apply (submit_scores_current_guess Similarity.calculateSimilarity
           readyToSubmit).
  vm_compute. reflexivity.
Defined.

Lemma playback_starts_and_stops_interval_witness :
  let s := mount bohemianRhapsody false true in
  let started := GamePlayer.step Similarity.calculateSimilarity s
                   (PlayerIsPlaying true) in
  let stopped := GamePlayer.step Similarity.calculateSimilarity s
                   (PlayerIsPlaying false) in
  (isPlaying s = false ->
     liveIntervals started = {[ nextInterval s ]}
     /\ intervalRef started = Some (nextInterval s)
     /\ timer started = timer s)
  /\ (isPlaying s = true ->
        liveIntervals stopped = ∅ /\ timer stopped = timer s).
Proof.
  cbn zeta.
  apply (playback_starts_and_stops_interval Similarity.calculateSimilarity
           (mount bohemianRhapsody false true)).
  - apply reachable_mount.
  - reflexivity.
  - reflexivity.
Defined.

Lemma track_or_readiness_change_cancels_interval_witness :
  let s1 := GamePlayer.step Similarity.calculateSimilarity midPlaying
              (TrackChanged underPressure) in
  let s2 := GamePlayer.step Similarity.calculateSimilarity midPlaying
              (PlayerIsInitialized false) in
  liveIntervals s1 = ∅ /\ ticking s1 = ticking midPlaying
  /\ liveIntervals s2 = ∅ /\ ticking s2 = ticking midPlaying
  /\ (forall i, GamePlayer.step Similarity.calculateSimilarity s1
                  (IntervalFired i) = s1).
Proof.
  cbn zeta.
  apply (track_or_readiness_change_cancels_interval
           Similarity.calculateSimilarity midPlaying underPressure false).
  - apply midPlaying_reachable.
  - vm_compute. discriminate.
Defined.

Lemma exactMatch_bounded a b : 0 <= exactMatch a b <= 1.
Proof.
  unfold exactMatch. destruct (String.eqb a b); split; discriminate.
Qed.

Lemma reported_scores_bounded_witness : scoresBounded scoredExactly.
Proof.
  apply (reported_scores_bounded exactMatch scoredExactly).
  - apply exactMatch_bounded.
  - unfold scoredExactly. apply reachable_run, reachable_mount.
Defined.

End RoundFacts.
